(** * Chunking pipeline and keyword-search fallback of the document
      search UI: a shallow embedding and its properties.

    [DocumentProcessor.chunkText] (services/DocumentProcessor.ts) and
    [WeaviateService.fallbackKeywordSearch] (services/WeaviateService.ts)
    are embedded as Rocq functions.  A JavaScript string is the list of its
    UTF-16 code units, so [length] is [String.prototype.length]. *)

From Stdlib Require Import Ascii String.
From Stdlib Require Import List Bool Arith NArith ZArith QArith Lia.
Import Init.Datatypes.
From Stdlib Require Import Floats.
From Stdlib Require Import DecimalString.
Import ListNotations.
Close Scope Q_scope.
Set Warnings "-inexact-float".

Set Implicit Arguments.

(** ** Strings *)

Module JsString.

Definition char := N.
Definition jsstring := list char.

(** A string literal of the source, code unit by code unit. *)
Definition lit (s : string) : jsstring :=
  map N_of_ascii (list_ascii_of_string s).
Arguments lit s%_string.

(** The character class [[.!?]] of the regular expression in [split]. *)
Definition is_delim (c : char) : bool :=
  (N.eqb c 46 || N.eqb c 33 || N.eqb c 63)%bool.

(** WhiteSpace and LineTerminator code points, what [trim] strips:
    TAB, LF, VT, FF, CR, SP, NBSP, U+1680, U+2000..U+200A, U+2028, U+2029,
    U+202F, U+205F, U+3000 and U+FEFF. *)
Definition is_ws (c : char) : bool :=
  ((N.leb 9 c && N.leb c 13) || N.eqb c 32 || N.eqb c 160 || N.eqb c 5760
   || (N.leb 8192 c && N.leb c 8202) || N.eqb c 8232 || N.eqb c 8233
   || N.eqb c 8239 || N.eqb c 8287 || N.eqb c 12288 || N.eqb c 65279)%bool.

Fixpoint dropws (s : jsstring) : jsstring :=
  match s with
  | [] => []
  | c :: s' => if is_ws c then dropws s' else s
  end.

(** [String.prototype.trim]. *)
Definition trim (s : jsstring) : jsstring :=
  rev (dropws (rev (dropws s))).

(** [text.split(/[.!?]+/)]: the pieces between the maximal runs of
    delimiters.  [cur] holds the piece being read, reversed; [skip] says
    that the previous code unit belonged to a delimiter run, which the
    greedy [+] then extends. *)
Fixpoint split_go (skip : bool) (cur : jsstring) (s : jsstring)
  : list jsstring :=
  match s with
  | [] => [rev cur]
  | c :: s' =>
      if is_delim c
      then if skip then split_go true [] s'
           else rev cur :: split_go true [] s'
      else split_go false (c :: cur) s'
  end.

Definition split (s : jsstring) : list jsstring := split_go false [] s.

(** The separator the two loops inject, [". "]. *)
Definition sep : jsstring := [46; 32]%N.

End JsString.
Import JsString.

(** ** Numbers

    [chunkSize] is a JavaScript number.  The code compares it with string
    lengths (integers, exact in binary64) and passes it to [substring];
    both are exact on a rational, so a finite number is a rational here. *)

Inductive number : Type :=
| Finite (q : Q)
| PosInfinity
| NegInfinity
| NaN.

Definition of_nat (n : nat) : number := Finite (inject_Z (Z.of_nat n)).

(** [n > x] for a length [n]. *)
Definition len_gt (n : nat) (x : number) : bool :=
  match x with
  | Finite q => negb (Qle_bool (inject_Z (Z.of_nat n)) q)
  | PosInfinity => false
  | NegInfinity => true
  | NaN => false
  end.

(** [text.substring(0, x)]: the end is [ToIntegerOrInfinity(x)] (NaN is 0,
    a fraction is truncated towards zero) clamped to [0 .. text.length]. *)
Definition substring0 (text : jsstring) (x : number) : jsstring :=
  match x with
  | Finite q => firstn (Z.to_nat (Z.quot (Qnum q) (Z.pos (Qden q)))) text
  | PosInfinity => text
  | NegInfinity => []
  | NaN => []
  end.

(** ** DocumentProcessor.chunkText *)

Module DocumentProcessor.

(** Both loops start from an empty array and the empty string (lines
    81-82 and 101-102). *)
Definition initial : list jsstring * jsstring := ([], []).

(** Line 80: [text.split(/[.!?]+/).filter(s => s.trim().length > 0)]. *)
Definition sentencesOf (text : jsstring) : list jsstring :=
  filter (fun s => 0 <? length (trim s)) (split text).

(** Lines 84-94, the first loop, on the state [(chunks, currentChunk)]. *)
Definition buildStep (chunkSize : number)
    (st : list jsstring * jsstring) (sentence : jsstring)
  : list jsstring * jsstring :=
  let '(chunks, currentChunk) := st in
  let trimmedSentence := trim sentence in
  if length trimmedSentence =? 0 then st
  else if (len_gt (length currentChunk + length trimmedSentence) chunkSize
           && (0 <? length currentChunk))%bool
  then (chunks ++ [trim currentChunk], trimmedSentence)
  else (chunks,
        currentChunk ++ (if 0 <? length currentChunk then sep else [])
                     ++ trimmedSentence).

(** Lines 81-98: the provisional chunks. *)
Definition buildChunks (chunkSize : number) (sentences : list jsstring)
  : list jsstring :=
  let '(chunks, currentChunk) :=
    fold_left (buildStep chunkSize) sentences initial in
  if 0 <? length (trim currentChunk)
  then chunks ++ [trim currentChunk]
  else chunks.

(** Lines 104-113, the second loop, on [(mergedChunks, tempChunk)]. *)
Definition mergeStep (st : list jsstring * jsstring) (chunk : jsstring)
  : list jsstring * jsstring :=
  let '(mergedChunks, tempChunk) := st in
  if ((length tempChunk + length chunk <? 100)
      && (0 <? length tempChunk))%bool
  then (mergedChunks, tempChunk ++ sep ++ chunk)
  else ((if 0 <? length tempChunk
         then mergedChunks ++ [tempChunk] else mergedChunks),
        chunk).

(** Lines 101-117. *)
Definition mergeChunks (chunks : list jsstring) : list jsstring :=
  let '(mergedChunks, tempChunk) := fold_left mergeStep chunks initial in
  if 0 <? length tempChunk
  then mergedChunks ++ [tempChunk]
  else mergedChunks.

(** Lines 79-120. *)
Definition chunkText (text : jsstring) (chunkSize : number)
  : list jsstring :=
  let mergedChunks := mergeChunks (buildChunks chunkSize (sentencesOf text)) in
  if 0 <? length mergedChunks
  then mergedChunks
  else [substring0 text chunkSize].

(** The default of the parameter, [chunkSize: number = 500], which is what
    [processFile] runs with. *)
Definition defaultChunkSize : number := of_nat 500.

Definition chunkTextDefault (text : jsstring) : list jsstring :=
  chunkText text defaultChunkSize.

End DocumentProcessor.
Import DocumentProcessor.

(** ** WeaviateService.fallbackKeywordSearch *)

Module WeaviateService.

Section Fallback.

(** What the fields of a returned object hold ([item: any]). *)
Variable value : Type.

Record RawItem : Type := mkRawItem {
  item_documentId : value;
  item_content : value;
  item_chunkIndex : value;
  item_documentName : value;
  item_uploadedAt : value
}.

Record Metadata : Type := mkMetadata {
  documentName : value;
  uploadedAt : value
}.

Record SearchResult : Type := mkSearchResult {
  documentId : value;
  content : value;
  score : float;
  chunkIndex : value;
  metadata : Metadata
}.

(** Line 215: [1 - (index * 0.1)], in binary64 as the source computes it;
    the literal stands for the nearest binary64 number, as in the
    source. *)
Definition positionScore (index : float) : float :=
  (1 - (index * 0.1))%float.

(** Lines 212-221, the callback of [map]. *)
Definition toResult (item : RawItem) (index : float) : SearchResult :=
  {| documentId := item_documentId item;
     content := item_content item;
     score := positionScore index;
     chunkIndex := item_chunkIndex item;
     metadata := {| documentName := item_documentName item;
                    uploadedAt := item_uploadedAt item |} |}.

(** [Array.prototype.map] with the index argument: the index is a number
    that starts at [k] and grows by one per element. *)
Fixpoint mapFrom (k : float) (items : list RawItem) : list SearchResult :=
  match items with
  | [] => []
  | item :: rest => toResult item k :: mapFrom (k + 1)%float rest
  end.

(** What the awaited GraphQL call can do: reject, or resolve with
    [result.data?.Get?.[className]] absent or an array of objects. *)
Inductive queryOutcome : Type :=
| Rejected
| Resolved (hits : option (list RawItem)).

(** The client: the [Like] query on [valueText], with the limit. *)
Definition client := jsstring -> number -> queryOutcome.

Inductive completion (A : Type) : Type :=
| Return (a : A)
| Throw (message : string).

(** Lines 192-226. *)
Definition fallbackKeywordSearch (c : option client)
    (query : jsstring) (limit : number) : completion (list SearchResult) :=
  match c with
  | None => Throw _ "Client not initialized"
  | Some run =>
      match run (lit "*" ++ query ++ lit "*") limit with
      | Rejected => Return []
      | Resolved None => Return []
      | Resolved (Some hits) => Return (mapFrom 0%float hits)
      end
  end.

(** The index [map] hands to the callback at position [i]. *)
Definition indexNumber (i : nat) : float :=
  Nat.iter i (fun k => (k + 1)%float) 0%float.

End Fallback.

(** The formula of line 215 over the rationals, with the literal read as
    the decimal 1/10; the binary64 score is [positionScore]. *)
Definition exactScore (i : nat) : Q :=
  (1 - inject_Z (Z.of_nat i) * (1 # 10))%Q.

(** The binary64 numbers of line 215 as sign, mantissa and exponent:
    [1] and the literal [0.1]. *)
Definition one64 : spec_float := Eval vm_compute in Prim2SF 1%float.
Definition tenth64 : spec_float := Eval vm_compute in Prim2SF 0.1%float.

(** A binary64 number above 1. *)
Definition AboveOne (y : spec_float) : Prop :=
  exists M E, y = S754_finite false M E
    /\ (2 ^ 52 <= Zpos M)%Z
    /\ (-51 <= E \/ (E = -52 /\ 2 ^ 52 < Zpos M))%Z.

(** The index from position 11 on: a binary64 number of full mantissa, at
    least 11 and below [2 ^ 53], or [2 ^ 53] itself, which adding one
    leaves in place. *)
Definition Counter (x : spec_float) : Prop :=
  (exists m e, x = S754_finite false m e
     /\ (2 ^ 52 <= Zpos m < 2 ^ 53)%Z
     /\ (-49 <= e <= 0)%Z
     /\ (e = -49 -> 11 * 2 ^ 49 <= Zpos m)%Z)
  \/ x = S754_finite false 4503599627370496 1.

End WeaviateService.
Import WeaviateService.

(** ** Predicates of the proofs *)

(** The first code unit, if any, is not whitespace. *)
Definition edge_ok (s : jsstring) : Prop :=
  match s with
  | [] => True
  | c :: _ => is_ws c = false
  end.

(** No whitespace at either end. *)
Definition clean (s : jsstring) : Prop := edge_ok s /\ edge_ok (rev s).

Definition NoDelim (s : jsstring) : Prop :=
  Forall (fun c => is_delim c = false) s.

(** What the first loop appends: a trimmed, non-empty piece of the text
    that holds no delimiter. *)
Definition Sentence (s : jsstring) : Prop :=
  s <> [] /\ clean s /\ NoDelim s.

(** The sentences of a group with [". "] between them. *)
Fixpoint join (g : list jsstring) : jsstring :=
  match g with
  | [] => []
  | s :: g' => s ++ match g' with [] => [] | _ => sep ++ join g' end
  end.

(** A non-empty run of sentences: what a chunk is made of. *)
Definition SGroup (g : list jsstring) : Prop :=
  g <> [] /\ Forall Sentence g.

(** The size test of line 88 let the last sentence in, or the group is a
    single sentence. *)
Definition Bounded (chunkSize : number) (g : list jsstring) : Prop :=
  length g = 1 \/ len_gt (length (join g) - 2) chunkSize = false.

Definition BGroup (chunkSize : number) (g : list jsstring) : Prop :=
  SGroup g /\ Bounded chunkSize g.

(** The state of the loop once the sentences [seen] are consumed. *)
Definition BuildInv (chunkSize : number) (seen : list jsstring)
    (st : list jsstring * jsstring) : Prop :=
  exists gs g,
    st = (map join gs, join g)
    /\ Forall (BGroup chunkSize) gs
    /\ (g = [] \/ BGroup chunkSize g)
    /\ concat gs ++ g = seen.

(** The state of the loop once the groups [seen] are consumed. *)
Definition MergeInv (seen : list jsstring)
    (st : list jsstring * jsstring) : Prop :=
  exists hs h,
    st = (map join hs, join h)
    /\ Forall SGroup hs
    /\ (h = [] \/ SGroup h)
    /\ concat hs ++ h = seen.

(** Neighbouring chunks that total at least 100 code units: the second
    loop never joins such a pair. *)
Fixpoint Apart (chunks : list jsstring) : Prop :=
  match chunks with
  | a :: (b :: _) as rest => 100 <= length a + length b /\ Apart rest
  | _ => True
  end.

(** The state of the first loop under a chunk size of 99 or more: nothing
    yet, or a trimmed current chunk that stands apart from the chunks
    emitted before it. *)
Definition ApartInv (st : list jsstring * jsstring) : Prop :=
  let '(chunks, currentChunk) := st in
  (currentChunk = [] /\ chunks = [])
  \/ (currentChunk <> [] /\ clean currentChunk
      /\ Apart (chunks ++ [currentChunk])
      /\ Forall (fun c => c <> []) chunks).

(** ** Properties as the specification words them *)

(** C3 as the specification words it: a provisional chunk is at most [S]
    plus the length of one of its sentences. *)
Definition WithinOneSentence (S : nat) (text : jsstring) : Prop :=
  Forall (fun chunk =>
            exists s, In s (map trim (sentencesOf chunk))
                      /\ length chunk <= S + length s)
         (buildChunks (of_nat S) (sentencesOf text)).

(** Its other wording: it exceeds [S] by at most the length of the last
    sentence appended. *)
Definition WithinLastSentence (S : nat) (text : jsstring) : Prop :=
  Forall (fun chunk =>
            length chunk
            <= S + length (last (map trim (sentencesOf chunk)) []))
         (buildChunks (of_nat S) (sentencesOf text)).

(** C1: apart from the first chunk, and unless there is only one, no
    chunk is shorter than [M]. *)
Definition MinimumViable (M : nat) (chunks : list jsstring) : Prop :=
  length chunks = 1 \/ Forall (fun c => M <= length c) (tl chunks).

(** C5 on the sign: the score is negative from position [n] on. *)
Definition NegativeFrom (n : nat) : Prop :=
  forall i, n <= i -> (positionScore (indexNumber i) <? 0)%float = true.

(** ** The specified merger *)

Module Spec.

(** The merger written after the words of section 4.3 of the
    specification, not after the code, with the minimum viable length [M]
    a parameter: a chunk joins [temp] while the
    two stay below [M] in total, otherwise [temp] is emitted and restarts
    from the chunk. *)
Fixpoint mergeFrom (M : nat) (temp : jsstring) (chunks : list jsstring)
  : list jsstring :=
  match chunks with
  | [] => if 0 <? length temp then [temp] else []
  | chunk :: rest =>
      if ((length temp + length chunk <? M) && (0 <? length temp))%bool
      then mergeFrom M (temp ++ sep ++ chunk) rest
      else (if 0 <? length temp then [temp] else [])
             ++ mergeFrom M chunk rest
  end.

Definition pipelineWith (M : nat) (text : jsstring) (chunkSize : number)
  : list jsstring :=
  let merged := mergeFrom M [] (buildChunks chunkSize (sentencesOf text)) in
  if 0 <? length merged then merged else [substring0 text chunkSize].

(** The threshold that keeps the 500 to 100 relation of the defaults. *)
Definition ratioThreshold (S : nat) : nat := S / 5.

(** C2: the threshold follows the chunk size. *)
Definition ThresholdFollowsChunkSize : Prop :=
  forall text S,
    chunkText text (of_nat S) = pipelineWith (ratioThreshold S) text (of_nat S).

End Spec.

(** ** chunkText on untyped values

    The types of the signature are erased when the code runs.  Here the
    body of [chunkText] runs on JavaScript values of any kind, and every
    property read and method call can end in a [TypeError], as it does in
    the engine on [undefined], [null] or a value without the method. *)

Module Dynamic.

#[warnings="-register-all"]
Inductive value : Type :=
| Undefined
| Null
| Boolean (b : bool)
| Number (n : number)
| Str (s : jsstring)
| Array (elements : list value).

(** How an evaluation ends: with a value, with a thrown [TypeError], or at
    an operation on operands whose coercion is not modelled. *)
Inductive outcome (A : Type) : Type :=
| Normal (a : A)
| TypeError
| Unmodelled.
Arguments TypeError {A}.
Arguments Unmodelled {A}.

Definition bind {A B : Type} (m : outcome A) (f : A -> outcome B)
  : outcome B :=
  match m with
  | Normal a => f a
  | TypeError => TypeError
  | Unmodelled => Unmodelled
  end.

Notation "x <- m ;; f" := (bind m (fun x => f))
  (at level 61, m at next level, right associativity).

(** The arithmetic and the comparisons of numbers that the body uses. *)
Definition num_add (x y : number) : number :=
  match x, y with
  | NaN, _ | _, NaN => NaN
  | PosInfinity, NegInfinity | NegInfinity, PosInfinity => NaN
  | PosInfinity, _ | _, PosInfinity => PosInfinity
  | NegInfinity, _ | _, NegInfinity => NegInfinity
  | Finite p, Finite q => Finite (p + q)%Q
  end.

Definition num_lt (x y : number) : bool :=
  match x, y with
  | NaN, _ | _, NaN => false
  | Finite p, Finite q => negb (Qle_bool q p)
  | PosInfinity, _ => false
  | _, PosInfinity => true
  | _, NegInfinity => false
  | NegInfinity, _ => true
  end.

Definition num_gt (x y : number) : bool := num_lt y x.

Definition num_eq (x y : number) : bool :=
  match x, y with
  | Finite p, Finite q => Qeq_bool p q
  | PosInfinity, PosInfinity | NegInfinity, NegInfinity => true
  | _, _ => false
  end.

(** ToBoolean, for the conditions. *)
Definition truthy (v : value) : bool :=
  match v with
  | Undefined | Null => false
  | Boolean b => b
  | Number n => negb (num_eq n (of_nat 0) || negb (num_eq n n))
  | Str s => 0 <? length s
  | Array _ => true
  end.

(** [v.length]. *)
Definition getLength (v : value) : outcome value :=
  match v with
  | Str s => Normal (Number (of_nat (length s)))
  | Array l => Normal (Number (of_nat (length l)))
  | Undefined | Null => TypeError
  | Boolean _ | Number _ => Normal Undefined
  end.

(** [v.trim()], [v.split(/[.!?]+/)], [v.push(x)] and [v.substring(0, e)]:
    a value that is not of the method's kind has no such method, and the
    call throws. *)
Definition callTrim (v : value) : outcome value :=
  match v with
  | Str s => Normal (Str (trim s))
  | _ => TypeError
  end.

Definition callSplit (v : value) : outcome value :=
  match v with
  | Str s => Normal (Array (map Str (split s)))
  | _ => TypeError
  end.

Definition callPush (v x : value) : outcome value :=
  match v with
  | Array l => Normal (Array (l ++ [x]))
  | _ => TypeError
  end.

Definition callSubstring0 (v e : value) : outcome value :=
  match v with
  | Str s =>
      match e with
      | Number n => Normal (Str (substring0 s n))
      | _ => Unmodelled
      end
  | _ => TypeError
  end.

(** [a + b], [a > b], [a < b] and [a === b] on the operands the body
    gives them. *)
Definition add (a b : value) : outcome value :=
  match a, b with
  | Number x, Number y => Normal (Number (num_add x y))
  | Str x, Str y => Normal (Str (x ++ y))
  | _, _ => Unmodelled
  end.

Definition gt (a b : value) : outcome value :=
  match a, b with
  | Number x, Number y => Normal (Boolean (num_gt x y))
  | _, _ => Unmodelled
  end.

Definition lt (a b : value) : outcome value :=
  match a, b with
  | Number x, Number y => Normal (Boolean (num_lt x y))
  | _, _ => Unmodelled
  end.

Definition strictEq (a b : value) : outcome value :=
  match a, b with
  | Number x, Number y => Normal (Boolean (num_eq x y))
  | _, _ => Unmodelled
  end.

(** [a && b]: [b] is evaluated only when [a] is truthy. *)
Definition and_then (a : value) (b : outcome value) : outcome value :=
  if truthy a then b else Normal a.

(** [v.filter(f)]. *)
Fixpoint filterM (f : value -> outcome value) (l : list value)
  : outcome (list value) :=
  match l with
  | [] => Normal []
  | x :: l' =>
      keep <- f x ;;
      rest <- filterM f l' ;;
      Normal (if truthy keep then x :: rest else rest)
  end.

Definition callFilter (f : value -> outcome value) (v : value)
  : outcome value :=
  match v with
  | Array l => kept <- filterM f l ;; Normal (Array kept)
  | _ => TypeError
  end.

(** [for (const x of v) body], on the variables [st] the body assigns.
    Neither loop of [chunkText] pushes to the array it iterates, so the
    elements visited are those the array holds when the loop starts. *)
Fixpoint foldM {A : Type} (body : A -> value -> outcome A) (l : list value)
    (st : A) : outcome A :=
  match l with
  | [] => Normal st
  | x :: l' => st' <- body st x ;; foldM body l' st'
  end.

Definition forOf {A : Type} (body : A -> value -> outcome A) (v : value)
    (st : A) : outcome A :=
  match v with
  | Array l => foldM body l st
  | Str _ => Unmodelled
  | _ => TypeError
  end.

Definition zero : value := Number (of_nat 0).

(** Lines 85-93, the body of the first loop on [(chunks, currentChunk)]. *)
Definition buildBody (chunkSize : value) (st : value * value)
    (sentence : value) : outcome (value * value) :=
  let '(chunks, currentChunk) := st in
  trimmedSentence <- callTrim sentence ;;
  n <- getLength trimmedSentence ;;
  empty <- strictEq n zero ;;
  if truthy empty then Normal st
  else
    a <- getLength currentChunk ;;
    b <- getLength trimmedSentence ;;
    total <- add a b ;;
    over <- gt total chunkSize ;;
    full <- and_then over (l <- getLength currentChunk ;; gt l zero) ;;
    if truthy full
    then
      t <- callTrim currentChunk ;;
      chunks' <- callPush chunks t ;;
      Normal (chunks', trimmedSentence)
    else
      l <- getLength currentChunk ;;
      started <- gt l zero ;;
      piece <- add (if truthy started then Str (lit ". ") else Str (lit ""))
                   trimmedSentence ;;
      currentChunk' <- add currentChunk piece ;;
      Normal (chunks, currentChunk').

(** Lines 105-112, the body of the second loop on
    [(mergedChunks, tempChunk)]. *)
Definition mergeBody (st : value * value) (chunk : value)
  : outcome (value * value) :=
  let '(mergedChunks, tempChunk) := st in
  a <- getLength tempChunk ;;
  b <- getLength chunk ;;
  total <- add a b ;;
  small <- lt total (Number (of_nat 100)) ;;
  joins <- and_then small (l <- getLength tempChunk ;; gt l zero) ;;
  if truthy joins
  then
    piece <- add (Str (lit ". ")) chunk ;;
    tempChunk' <- add tempChunk piece ;;
    Normal (mergedChunks, tempChunk')
  else
    l <- getLength tempChunk ;;
    some <- gt l zero ;;
    mergedChunks' <- (if truthy some then callPush mergedChunks tempChunk
                      else Normal mergedChunks) ;;
    Normal (mergedChunks', chunk).

(** Lines 79-120; an [undefined] second argument takes the default 500. *)
Definition chunkText_dyn (text chunkSize : value) : outcome value :=
  let chunkSize := match chunkSize with
                   | Undefined => Number (of_nat 500)
                   | v => v
                   end in
  pieces <- callSplit text ;;
  sentences <- callFilter (fun s => t <- callTrim s ;;
                                    n <- getLength t ;;
                                    gt n zero) pieces ;;
  st <- forOf (buildBody chunkSize) sentences (Array [], Str (lit "")) ;;
  let '(chunks, currentChunk) := st in
  t <- callTrim currentChunk ;;
  n <- getLength t ;;
  rest <- gt n zero ;;
  chunks <- (if truthy rest
             then t' <- callTrim currentChunk ;; callPush chunks t'
             else Normal chunks) ;;
  st' <- forOf mergeBody chunks (Array [], Str (lit "")) ;;
  let '(mergedChunks, tempChunk) := st' in
  l <- getLength tempChunk ;;
  some <- gt l zero ;;
  mergedChunks <- (if truthy some then callPush mergedChunks tempChunk
                   else Normal mergedChunks) ;;
  k <- getLength mergedChunks ;;
  any <- gt k zero ;;
  if truthy any then Normal mergedChunks
  else
    s <- callSubstring0 text chunkSize ;;
    Normal (Array [s]).

(** The variables of a loop of the embedding, as the values the run
    holds. *)
Definition inject (st : list jsstring * jsstring) : value * value :=
  (Array (map Str (fst st)), Str (snd st)).

End Dynamic.

(** ** Strings: the other methods the components use *)

Module JsStringOps.

(** [a === b] on strings. *)
Fixpoint str_eqb (a b : jsstring) : bool :=
  match a, b with
  | [], [] => true
  | x :: a', y :: b' => (N.eqb x y && str_eqb a' b')%bool
  | _, _ => false
  end.

(** [s.split(d)] for a separator [d] of one code unit: the pieces between
    the occurrences of [d], empty pieces included. *)
Fixpoint splitOn_go (d : char) (cur : jsstring) (s : jsstring)
  : list jsstring :=
  match s with
  | [] => [rev cur]
  | c :: s' =>
      if N.eqb c d then rev cur :: splitOn_go d [] s'
      else splitOn_go d (c :: cur) s'
  end.

Definition splitOn (d : char) (s : jsstring) : list jsstring :=
  splitOn_go d [] s.

(** [array.pop()] as a value: the last element, [undefined] on the empty
    array. *)
Fixpoint pop (A : Type) (l : list A) : option A :=
  match l with
  | [] => None
  | [x] => Some x
  | _ :: l' => pop l'
  end.

(** [s.endsWith(suffix)]. *)
Definition endsWith (s suffix : jsstring) : bool :=
  (length suffix <=? length s)
  && str_eqb (skipn (length s - length suffix) s) suffix.

(** [array.includes(x)] on an array of strings. *)
Definition includes (l : list jsstring) (x : jsstring) : bool :=
  existsb (str_eqb x) l.

(** [array.join(d)]. *)
Fixpoint joinWith (d : jsstring) (l : list jsstring) : jsstring :=
  match l with
  | [] => []
  | [x] => x
  | x :: l' => x ++ d ++ joinWith d l'
  end.

(** [String(n)] for an array length. *)
Definition decimal (n : nat) : jsstring :=
  lit (NilEmpty.string_of_uint (Nat.to_uint n)).

(** [toLowerCase] is a parameter of the components below.  On strings of
    ASCII code units it is this function, which is all the properties
    that read a lowered name assume of it. *)
Definition lowerAscii (c : char) : char :=
  if (N.leb 65 c && N.leb c 90)%bool then (c + 32)%N else c.

Definition toLowerCaseAscii (s : jsstring) : jsstring := map lowerAscii s.

Definition Ascii (s : jsstring) : Prop := Forall (fun c => (c < 128)%N) s.

Definition LowersAscii (toLowerCase : jsstring -> jsstring) : Prop :=
  forall s, Ascii s -> toLowerCase s = toLowerCaseAscii s.

End JsStringOps.
Import JsStringOps.

(** ** Files and DocumentProcessor.processFile *)

Module Files.

(** What the code reads of a [File]: its name, MIME type and size, and
    what [text()] and [arrayBuffer()] do when awaited ([None] and [false]:
    the promise rejects). *)
Record File : Type := mkFile {
  file_name : jsstring;
  file_type : jsstring;
  file_size : N;
  file_text : option jsstring;
  file_arrayBuffer : bool
}.

Definition mime_pdf : jsstring := lit "application/pdf".
Definition mime_docx : jsstring :=
  lit "application/vnd.openxmlformats-officedocument.wordprocessingml.document".
Definition mime_doc : jsstring := lit "application/msword".
Definition mime_txt : jsstring := lit "text/plain".
Definition mime_md : jsstring := lit "text/markdown".
Definition mime_rtf : jsstring := lit "application/rtf".

(** utils/constants.ts, lines 1-8. *)
Definition SUPPORTED_FILE_TYPES : list jsstring :=
  [mime_pdf; mime_docx; mime_doc; mime_txt; mime_md; mime_rtf].

(** utils/constants.ts, line 10. *)
Definition MAX_FILE_SIZE : N := (10 * 1024 * 1024)%N.

End Files.
Import Files.

Module Extraction.

Section WithLowerCase.

Variable toLowerCase : jsstring -> jsstring.

(** DocumentProcessor.ts, line 25:
    [filename.split('.').pop()?.toLowerCase()]. *)
Definition extensionOf (filename : jsstring) : option jsstring :=
  option_map toLowerCase (pop (splitOn 46%N filename)).

(** The [switch] of lines 26-41. *)
Definition typeOfExtension (ext : option jsstring) : jsstring :=
  match ext with
  | Some e =>
      if str_eqb e (lit "pdf") then mime_pdf
      else if str_eqb e (lit "docx") then mime_docx
      else if str_eqb e (lit "doc") then mime_doc
      else if str_eqb e (lit "txt") then mime_txt
      else if str_eqb e (lit "md") then mime_md
      else if str_eqb e (lit "rtf") then mime_rtf
      else mime_txt
  | None => mime_txt
  end.

(** Lines 24-42. *)
Definition getTypeFromName (filename : jsstring) : jsstring :=
  typeOfExtension (extensionOf filename).

(** Lines 44-55. *)
Definition extractFromPDF (file : File) : jsstring :=
  if file_arrayBuffer file
  then lit "Extracted text from PDF: " ++ file_name file ++ [10; 10]%N
       ++ lit "This is a demonstration of PDF text extraction. In a real implementation, you would use a library like pdf-parse to extract the actual text content from the PDF file."
  else lit "Error extracting PDF: " ++ file_name file.

(** Lines 57-68. *)
Definition extractFromWord (file : File) : jsstring :=
  if file_arrayBuffer file
  then lit "Extracted text from Word document: " ++ file_name file
       ++ [10; 10]%N
       ++ lit "This is a demonstration of Word document text extraction. In a real implementation, you would use a library like mammoth.js to extract the actual text content from Word documents."
  else lit "Error extracting Word document: " ++ file_name file.

(** Lines 70-77. *)
Definition extractFromText (file : File) : jsstring :=
  match file_text file with
  | Some text => text
  | None => lit "Error reading text file: " ++ file_name file
  end.

(** Line 8: [file.type || this.getTypeFromName(file.name)]. *)
Definition fileTypeOf (file : File) : jsstring :=
  if 0 <? length (file_type file) then file_type file
  else getTypeFromName (file_name file).

(** Lines 7-22. *)
Definition extractText (file : File) : jsstring :=
  let fileType := fileTypeOf file in
  if str_eqb fileType mime_pdf then extractFromPDF file
  else if (str_eqb fileType mime_docx || str_eqb fileType mime_doc)%bool
  then extractFromWord file
  else extractFromText file.

(** Lines 2-5; [chunkText] runs with its default chunk size. *)
Definition processFile (file : File) : list jsstring :=
  chunkTextDefault (extractText file).

End WithLowerCase.

End Extraction.
Import Extraction.

(** ** FileUpload: validation and the drop handlers *)

Module FileUpload.

Section WithLowerCase.

Variable toLowerCase : jsstring -> jsstring.

(** components/FileUpload.tsx, lines 16-23. *)
Definition supportedTypes : list jsstring :=
  [mime_pdf; mime_docx; mime_doc; mime_txt; mime_md; mime_rtf].

(** Lines 30-32. *)
Definition isSupported (file : File) : bool :=
  (includes supportedTypes (file_type file)
   || endsWith (toLowerCase (file_name file)) (lit ".txt")
   || endsWith (toLowerCase (file_name file)) (lit ".md"))%bool.

(** Line 34. *)
Definition accepted (file : File) : bool :=
  (isSupported file && N.leb (file_size file) (10 * 1024 * 1024))%bool.

(** Lines 29-39, the callback of [forEach] on [(valid, invalid)]. *)
Definition validateStep (st : list File * list File) (file : File)
  : list File * list File :=
  let '(valid, invalid) := st in
  if accepted file then (valid ++ [file], invalid)
  else (valid, invalid ++ [file]).

(** Lines 25-42. *)
Definition validateFiles (files : list File) : list File * list File :=
  fold_left validateStep files ([], []).

(** What a handler leaves behind: the two pieces of state and the call of
    [onUpload], if any. *)
Record Handled : Type := mkHandled {
  dragOver : bool;
  error : option jsstring;
  uploaded : option (list File)
}.

(** Lines 56 and 73. *)
Definition rejectedMessage (n : nat) : jsstring :=
  decimal n
  ++ lit " file(s) were rejected. Only PDF, DOCX, DOC, TXT, MD, and RTF files under 10MB are supported.".

(** Lines 53-61 and 70-78. *)
Definition validateAndUpload (dragOverNow : bool) (files : list File)
  : Handled :=
  let '(valid, invalid) := validateFiles files in
  {| dragOver := dragOverNow;
     error := if 0 <? length invalid
              then Some (rejectedMessage (length invalid)) else None;
     uploaded := if 0 <? length valid then Some valid else None |}.

(** Lines 44-62. *)
Definition handleDrop (disabled : bool) (files : list File) : Handled :=
  if disabled
  then {| dragOver := false; error := None; uploaded := None |}
  else validateAndUpload false files.

(** Lines 64-82; [files] is [e.target.files], which may be null, and
    [dragOverNow] the state the handler does not touch. *)
Definition handleFileInput (dragOverNow : bool) (files : option (list File))
  : Handled :=
  match files with
  | None => {| dragOver := dragOverNow; error := None; uploaded := None |}
  | Some fs => validateAndUpload dragOverNow fs
  end.

End WithLowerCase.

End FileUpload.
Import FileUpload.

(** ** WeaviateService: embedding, indexing and the vector search *)

Module WeaviateIndexing.

(** [text.charCodeAt(i)] as a number. *)
Definition codeUnitNumber (c : char) : float :=
  PrimFloat.of_uint63 (Uint63.of_Z (Z.of_N c)).

(** [embedding[i] = v]; the loop of line 111 only writes below the
    length. *)
Fixpoint setAt (i : nat) (v : float) (l : list float) : list float :=
  match l, i with
  | [], _ => []
  | _ :: r, 0 => v :: r
  | x :: r, S i' => x :: setAt i' v r
  end.

(** Lines 111-113: the loop from index [i] over the code units left. *)
Fixpoint fillFrom (i : nat) (rest : jsstring) (embedding : list float)
  : list float :=
  match rest with
  | [] => embedding
  | c :: rest' =>
      if i <? 384
      then fillFrom (S i) rest'
             (setAt i (codeUnitNumber c / 255 - 0.5)%float embedding)
      else embedding
  end.

(** [x || d] on numbers: [d] when [x] is zero or NaN. *)
Definition orElse (x d : float) : float :=
  if (PrimFloat.eqb x 0 || PrimFloat.is_nan x)%bool then d else x.

(** services/WeaviateService.ts, lines 106-118. *)
Definition generateEmbedding (text : jsstring) : list float :=
  let embedding := fillFrom 0 text (repeat 0%float 384) in
  let magnitude :=
    PrimFloat.sqrt
      (fold_left (fun sum val => (sum + val * val)%float) embedding 0%float) in
  map (fun val => (val / orElse magnitude 1)%float) embedding.

(** types.ts, lines 1-9. *)
Record Document : Type := mkDocument {
  doc_id : jsstring;
  doc_name : jsstring;
  doc_type : jsstring;
  doc_size : N;
  doc_uploadedAt : jsstring;
  doc_chunks : nat;
  doc_content : jsstring
}.

(** The object of lines 131-141; its class is always ['DocumentChunk']. *)
Record IndexObject : Type := mkIndexObject {
  obj_class : jsstring;
  obj_content : jsstring;
  obj_documentId : jsstring;
  obj_documentName : jsstring;
  obj_chunkIndex : nat;
  obj_uploadedAt : jsstring;
  obj_vector : list float
}.

Definition className : jsstring := lit "DocumentChunk".

(** Lines 125-142: the loop from index [i] over the chunks left. *)
Fixpoint objectsFrom (document : Document) (i : nat)
    (chunks : list jsstring) : list IndexObject :=
  match chunks with
  | [] => []
  | chunk :: rest =>
      if length (trim chunk) =? 0
      then objectsFrom document (S i) rest
      else {| obj_class := className;
              obj_content := chunk;
              obj_documentId := doc_id document;
              obj_documentName := doc_name document;
              obj_chunkIndex := i;
              obj_uploadedAt := doc_uploadedAt document;
              obj_vector := generateEmbedding chunk |}
           :: objectsFrom document (S i) rest
  end.

(** The batch call: it resolves ([None]) or rejects with an error. *)
Definition batcher := list IndexObject -> option string.

(** Lines 120-150.  The result tells what was sent: [Some objects] for one
    batch call, [None] when no call was made. *)
Definition indexDocument (c : option batcher) (document : Document)
    (chunks : list jsstring) : completion (option (list IndexObject)) :=
  match c with
  | None => Throw _ "Client not initialized"
  | Some batch =>
      let objects := objectsFrom document 0 chunks in
      if 0 <? length objects
      then match batch objects with
           | None => Return (Some objects)
           | Some e => Throw _ e
           end
      else Return None
  end.

Section Search.

Variable value : Type.






End Search.

End WeaviateIndexing.
Import WeaviateIndexing.

(** ** App: one upload, the selection and the deletion of documents *)

Module App.

(** types.ts, lines 11-20, as the state of [App] holds it. *)
Record Result : Type := mkResult {
  res_documentId : jsstring;
  res_content : jsstring;
  res_score : float;
  res_chunkIndex : nat;
  res_documentName : jsstring;
  res_uploadedAt : jsstring
}.

(** App.tsx, line 70: [chunks.join(' ').substring(0, 1000) + '...']. *)
Definition previewOf (chunks : list jsstring) : jsstring :=
  firstn 1000 (joinWith (lit " ") chunks) ++ lit "...".

(** Lines 63-71; [id] and [now] stand for [crypto.randomUUID()] and
    [new Date().toISOString()]. *)
Definition makeDocument (file : File) (id now : jsstring)
    (chunks : list jsstring) : Document :=
  {| doc_id := id;
     doc_name := file_name file;
     doc_type := if 0 <? length (file_type file) then file_type file
                 else lit "application/octet-stream";
     doc_size := file_size file;
     doc_uploadedAt := now;
     doc_chunks := length chunks;
     doc_content := previewOf chunks |}.

(** Lines 59-75, the body of the upload loop for one file: the document
    and what indexing it did. *)
Definition uploadOne (toLowerCase : jsstring -> jsstring)
    (c : option batcher) (file : File) (id now : jsstring)
  : Document * completion (option (list IndexObject)) :=
  let chunks := processFile toLowerCase file in
  let document := makeDocument file id now chunks in
  (document, indexDocument c document chunks).

(** The state of [App] that the document handlers read and write: lines
    16, 17 and 22. *)
Record AppState : Type := mkAppState {
  documents : list Document;
  searchResults : list Result;
  selectedDocument : option Document
}.

(** Line 304, the click on a document card:
    [setSelectedDocument(document)]. *)
Definition selectDocument (document : Document) (st : AppState) : AppState :=
  {| documents := documents st;
     searchResults := searchResults st;
     selectedDocument := Some document |}.

(** Lines 112-121; [deleted] says whether [deleteDocument] resolved.  The
    two setters filter the lists; [selectedDocument] is not assigned. *)
Definition handleDeleteDocument (deleted : bool) (documentId : jsstring)
    (st : AppState) : AppState :=
  if deleted
  then {| documents :=
            filter (fun doc => negb (str_eqb (doc_id doc) documentId))
                   (documents st);
          searchResults :=
            filter (fun result =>
                      negb (str_eqb (res_documentId result) documentId))
                   (searchResults st);
          selectedDocument := selectedDocument st |}
  else st.

(** Lines 123-139; [confirmed] is the answer to [confirm], and [deletes]
    says for which ids [deleteDocument] resolves: the first rejection
    leaves the loop for the [catch], before any setter runs. *)
Definition handleClearAll (confirmed : bool) (deletes : jsstring -> bool)
    (st : AppState) : AppState :=
  if confirmed
  then if forallb (fun doc => deletes (doc_id doc)) (documents st)
       then {| documents := [];
               searchResults := [];
               selectedDocument := None |}
       else st
  else st.

(** Lines 384-415: the details panel is rendered when [selectedDocument]
    is not [null], and shows that document. *)
Definition detailsPanel (st : AppState) : option Document :=
  selectedDocument st.

(** components/SearchResults.tsx, lines 16-18. *)
Definition getDocumentById (documents : list Document) (id : jsstring)
  : option Document :=
  find (fun doc => str_eqb (doc_id doc) id) documents.

End App.
Import App.

(** ** SearchResults: the relevance buckets *)

Module Relevance.

(** hooks/useTheme.ts, line 3. *)
Inductive Theme : Type := light | dark.

(** components/SearchResults.tsx, lines 39-44. *)
Definition getRelevanceColor (theme : Theme) (score : float) : jsstring :=
  if (0.8 <=? score)%float
  then match theme with dark => lit "text-green-400" | light => lit "text-green-600" end
  else if (0.6 <=? score)%float
  then match theme with dark => lit "text-yellow-400" | light => lit "text-yellow-600" end
  else if (0.4 <=? score)%float
  then match theme with dark => lit "text-orange-400" | light => lit "text-orange-600" end
  else match theme with dark => lit "text-red-400" | light => lit "text-red-600" end.

(** Lines 46-51. *)
Definition getRelevanceLabel (score : float) : jsstring :=
  if (0.8 <=? score)%float then lit "Highly Relevant"
  else if (0.6 <=? score)%float then lit "Very Relevant"
  else if (0.4 <=? score)%float then lit "Relevant"
  else lit "Somewhat Relevant".

(** Lines 177-183, the colour of the relevance bar. *)
Definition barColor (score : float) : jsstring :=
  if (0.8 <=? score)%float then lit "bg-green-500"
  else if (0.6 <=? score)%float then lit "bg-yellow-500"
  else if (0.4 <=? score)%float then lit "bg-orange-500"
  else lit "bg-red-500".

(** The label that the formula [1 - i * 0.1] of the keyword fallback
    leads to at position [i], as the code computes it. *)
Definition positionLabel (i : nat) : jsstring :=
  if i <? 3 then lit "Highly Relevant"
  else if i <? 5 then lit "Very Relevant"
  else if i <? 6 then lit "Relevant"
  else lit "Somewhat Relevant".

End Relevance.
Import Relevance.

(** ** useTheme *)

Module UseTheme.

Definition themeName (theme : Theme) : jsstring :=
  match theme with light => lit "light" | dark => lit "dark" end.

(** hooks/useTheme.ts, lines 6-13: [hasWindow] is
    [typeof window !== 'undefined'], [stored] the item of
    [localStorage], [prefersDark] the media query. *)
Definition initialTheme (hasWindow : bool) (stored : option jsstring)
    (prefersDark : bool) : Theme :=
  if negb hasWindow then light
  else
    let byMedia := if prefersDark then dark else light in
    match stored with
    | Some s =>
        if str_eqb s (lit "light") then light
        else if str_eqb s (lit "dark") then dark
        else byMedia
    | None => byMedia
    end.

(** What the effect writes: the stored item and whether the root element
    has the class [dark]. *)
Record Page : Type := mkPage {
  storedTheme : option jsstring;
  darkClass : bool
}.

(** Lines 15-23. *)
Definition applyTheme (theme : Theme) (page : Page) : Page :=
  {| storedTheme := Some (themeName theme);
     darkClass := match theme with dark => true | light => false end |}.

(** Lines 25-27. *)
Definition toggleTheme (theme : Theme) : Theme :=
  match theme with light => dark | dark => light end.

End UseTheme.
Import UseTheme.

(** ** DocumentCard: the icon of a file *)

Module DocumentCard.

(** components/DocumentCard.tsx, lines 32-48: the colour class of the
    icon, from [document.name.split('.').pop()?.toLowerCase()]. *)
Definition getFileIcon (toLowerCase : jsstring -> jsstring)
    (name : jsstring) : jsstring :=
  match extensionOf toLowerCase name with
  | Some e =>
      if str_eqb e (lit "pdf") then lit "text-red-500"
      else if (str_eqb e (lit "docx") || str_eqb e (lit "doc"))%bool
      then lit "text-blue-500"
      else if (str_eqb e (lit "txt") || str_eqb e (lit "md"))%bool
      then lit "text-green-500"
      else if str_eqb e (lit "rtf") then lit "text-purple-500"
      else lit "text-gray-500"
  | None => lit "text-gray-500"
  end.

End DocumentCard.
Import DocumentCard.

(** A text of whitespace only. *)
Definition Blank (text : jsstring) : Prop :=
  Forall (fun c => is_ws c = true) text.

(** ** Trimming *)

Section TrimFacts.

Lemma dropws_edge s : edge_ok s -> dropws s = s.
Proof. destruct s as [|c s]; simpl; intros H; [reflexivity | now rewrite H]. Qed.

Lemma edge_dropws s : edge_ok (dropws s).
Proof.
  induction s as [|c s IH]; simpl; [exact I|].
  destruct (is_ws c) eqn:E; [exact IH | exact E].
Qed.

Lemma dropws_suffix s : exists p, s = p ++ dropws s.
Proof.
  induction s as [|c s [p IH]]; simpl.
  - now exists [].
  - destruct (is_ws c).
    + exists (c :: p). simpl. now rewrite <- IH.
    + now exists [].
Qed.

Lemma edge_app s t : s <> [] -> edge_ok s -> edge_ok (s ++ t).
Proof. destruct s; simpl; [congruence | auto]. Qed.

Lemma trim_clean_id s : clean s -> trim s = s.
Proof.
  intros [H1 H2]. unfold trim.
  rewrite (dropws_edge _ H1), (dropws_edge _ H2). apply rev_involutive.
Qed.

Lemma clean_trim s : clean (trim s).
Proof.
  unfold trim, clean. rewrite rev_involutive. split; [|apply edge_dropws].
  pose proof (edge_dropws s) as Hd.
  destruct (dropws_suffix (rev (dropws s))) as [p Hp].
  destruct (dropws (rev (dropws s))) as [|c u]; [exact I|].
  assert (Hr : dropws s = rev (c :: u) ++ rev p).
  { rewrite <- rev_app_distr, <- Hp. now rewrite rev_involutive. }
  rewrite Hr in Hd.
  destruct (rev (c :: u)) as [|d r] eqn:Er.
  - apply (f_equal (@length _)) in Er. rewrite length_rev in Er. discriminate.
  - exact Hd.
Qed.

Lemma clean_app a m b :
  a <> [] -> b <> [] -> clean a -> clean b -> clean (a ++ m ++ b).
Proof.
  intros Ha Hb [Ha1 _] [_ Hb2]. split.
  - now apply edge_app.
  - rewrite !rev_app_distr, <- app_assoc. apply edge_app; [|exact Hb2].
    intros E. apply Hb. apply (f_equal (@rev _)) in E.
    now rewrite rev_involutive in E.
Qed.

Lemma trim_space s : trim (32%N :: s) = trim s.
Proof. reflexivity. Qed.

End TrimFacts.

(** ** Sentences and their joins *)

Section Sentences.

Lemma join_app g1 g2 :
  g1 <> [] -> g2 <> [] -> join (g1 ++ g2) = join g1 ++ sep ++ join g2.
Proof.
  intros H1 H2. induction g1 as [|s g1 IH]; [congruence|].
  destruct g1 as [|s' g1].
  - simpl. destruct g2; [congruence|]. now rewrite app_nil_r.
  - change (join ((s :: s' :: g1) ++ g2))
      with (s ++ sep ++ join ((s' :: g1) ++ g2)).
    rewrite IH by discriminate.
    change (join (s :: s' :: g1)) with (s ++ sep ++ join (s' :: g1)).
    now rewrite <- !app_assoc.
Qed.

Lemma join_single s : join [s] = s.
Proof. simpl. apply app_nil_r. Qed.

Lemma join_cons s g : g <> [] -> join (s :: g) = s ++ sep ++ join g.
Proof. destruct g; [congruence | reflexivity]. Qed.

Lemma join_nonempty g : SGroup g -> join g <> [].
Proof.
  intros [Hn Hs]. destruct g as [|s g]; [congruence|].
  inversion Hs as [|? ? [Hs1 _] _]; subst.
  simpl. destruct s; [congruence | discriminate].
Qed.

Lemma join_clean g : SGroup g -> clean (join g).
Proof.
  intros [Hn Hs]. induction g as [|s g IH]; [congruence|].
  inversion Hs as [|? ? [Hs1 [Hs2 _]] Hg]; subst.
  destruct g as [|s' g].
  - now rewrite join_single.
  - rewrite join_cons by discriminate.
    apply clean_app; auto.
    + apply join_nonempty. split; [discriminate | assumption].
    + apply IH; [discriminate | assumption].
Qed.

Lemma join_length_pos g : SGroup g -> 0 < length (join g).
Proof.
  intros H. apply join_nonempty in H.
  destruct (join g); [congruence | simpl; lia].
Qed.

Lemma sgroup_app g1 g2 : SGroup g1 -> SGroup g2 -> SGroup (g1 ++ g2).
Proof.
  intros [H1 F1] [_ F2]. split.
  - destruct g1; [congruence | discriminate].
  - apply Forall_app. now split.
Qed.

Lemma sgroup_single s : Sentence s -> SGroup [s].
Proof. intros H. split; [discriminate | now constructor]. Qed.

End Sentences.

(** ** The segmenter *)

Section Segmenter.

Lemma NoDelim_rev s : NoDelim s -> NoDelim (rev s).
Proof. apply Forall_rev. Qed.

Lemma NoDelim_dropws s : NoDelim s -> NoDelim (dropws s).
Proof.
  induction s as [|c s IH]; simpl; intros H; [exact H|].
  destruct (is_ws c); [|exact H]. apply IH. now inversion H.
Qed.

Lemma NoDelim_trim s : NoDelim s -> NoDelim (trim s).
Proof.
  intros H. unfold trim.
  now apply NoDelim_rev, NoDelim_dropws, NoDelim_rev, NoDelim_dropws.
Qed.

Lemma split_go_NoDelim s : forall skip cur,
  NoDelim cur -> Forall NoDelim (split_go skip cur s).
Proof.
  induction s as [|c s IH]; intros skip cur Hc; simpl.
  - constructor; [now apply NoDelim_rev | constructor].
  - destruct (is_delim c) eqn:E.
    + destruct skip.
      * apply IH. constructor.
      * constructor; [now apply NoDelim_rev | apply IH; constructor].
    + apply IH. now constructor.
Qed.

Lemma split_NoDelim text : Forall NoDelim (split text).
Proof. apply split_go_NoDelim. constructor. Qed.

(** The segmenter only lets through pieces whose trimmed form is a
    sentence. *)
Lemma sentencesOf_Sentence text :
  Forall (fun s => Sentence (trim s)) (sentencesOf text).
Proof.
  unfold sentencesOf. apply Forall_forall. intros s Hin.
  apply filter_In in Hin. destruct Hin as [Hin Hlen].
  repeat split.
  - intros E. rewrite E in Hlen. discriminate.
  - apply clean_trim.
  - apply clean_trim.
  - apply NoDelim_trim.
    pose proof (split_NoDelim text) as H.
    rewrite Forall_forall in H. now apply H.
Qed.

(** Reading a delimiter-free stretch only grows the current piece. *)
Lemma split_go_stretch a : forall skip cur rest,
  a <> [] -> NoDelim a ->
  split_go skip cur (a ++ rest) = split_go false (rev a ++ cur) rest.
Proof.
  induction a as [|c a IH]; intros skip cur rest Hne Hnd; [congruence|].
  inversion Hnd as [|? ? Hc Ha]; subst. simpl. rewrite Hc.
  destruct a as [|c' a].
  - reflexivity.
  - rewrite IH by (assumption || discriminate).
    now rewrite <- app_assoc.
Qed.

Lemma split_go_join g : forall p,
  SGroup g ->
  split_go false p (join g)
  = match g with
    | [] => []
    | s :: g' => (rev p ++ s) :: map (cons 32%N) g'
    end.
Proof.
  induction g as [|s g IH]; intros p [Hne Hs]; [congruence|].
  inversion Hs as [|? ? [Hs1 [_ Hs3]] Hg]; subst.
  destruct g as [|s' g].
  - rewrite join_single. rewrite <- (app_nil_r s) at 1.
    rewrite split_go_stretch by assumption. simpl.
    now rewrite rev_app_distr, rev_involutive.
  - rewrite join_cons by discriminate.
    rewrite split_go_stretch by assumption.
    change (sep ++ join (s' :: g)) with (46%N :: 32%N :: join (s' :: g)).
    cbn [split_go]. change (is_delim 46%N) with true.
    change (is_delim 32%N) with false. cbn iota.
    rewrite IH by (split; [discriminate | assumption]).
    rewrite rev_app_distr, rev_involutive. reflexivity.
Qed.

(** Segmenting a chunk again gives back the sentences it was joined
    from. *)
Lemma resegment g :
  SGroup g -> map trim (sentencesOf (join g)) = g.
Proof.
  intros H. unfold sentencesOf, split. rewrite split_go_join by assumption.
  destruct H as [Hne Hs]. destruct g as [|s g]; [congruence|].
  inversion Hs as [|? ? [Hs1 [Hs2 _]] Hg]; subst.
  cbn [rev app filter].
  rewrite (trim_clean_id Hs2).
  destruct s as [|c s]; [congruence|]. cbn [length Nat.ltb Nat.leb map].
  rewrite (trim_clean_id Hs2). f_equal.
  clear - Hg. induction g as [|s' g IH]; [reflexivity|].
  inversion Hg as [|? ? [Hs1 [Hs2 _]] Hg']; subst.
  cbn [map filter]. rewrite trim_space, (trim_clean_id Hs2).
  destruct s' as [|c s']; [congruence|]. cbn [length Nat.ltb Nat.leb map].
  rewrite trim_space, (trim_clean_id Hs2). f_equal. now apply IH.
Qed.

End Segmenter.

(** ** The first loop: provisional chunks *)

Section Builder.

Variable chunkSize : number.

Lemma current_empty g :
  (g = [] \/ BGroup chunkSize g) -> (0 <? length (join g)) = false -> g = [].
Proof.
  intros [E | [Hg _]] H; [exact E|].
  apply join_length_pos in Hg. apply Nat.ltb_ge in H. lia.
Qed.

Lemma current_full g :
  (g = [] \/ BGroup chunkSize g) ->
  (0 <? length (join g)) = true -> BGroup chunkSize g.
Proof.
  intros [E | Hg] H; [|exact Hg]. subst. discriminate.
Qed.

Lemma buildStep_inv seen st sentence :
  BuildInv chunkSize seen st -> Sentence (trim sentence) ->
  BuildInv chunkSize (seen ++ [trim sentence])
           (buildStep chunkSize st sentence).
Proof.
  intros (gs & g & -> & Hgs & Hg & Hseen) Hs.
  pose proof Hs as (Hne & Hcl & Hnd).
  unfold buildStep.
  assert (Hlen : (length (trim sentence) =? 0) = false).
  { apply Nat.eqb_neq. destruct (trim sentence); [congruence | discriminate]. }
  rewrite Hlen.
  destruct (len_gt (length (join g) + length (trim sentence)) chunkSize)
    eqn:Egt;
  destruct (0 <? length (join g)) eqn:Epos; cbn [andb].
  - (* the chunk is full: emit it and restart from the sentence *)
    pose proof (current_full Hg Epos) as Hb.
    exists (gs ++ [g]), [trim sentence]. repeat split.
    + rewrite map_app. cbn [map].
      rewrite (trim_clean_id (join_clean (proj1 Hb))).
      now rewrite join_single.
    + apply Forall_app. split; [assumption | now constructor].
    + right. split; [now apply sgroup_single | now left].
    + rewrite concat_app. cbn [concat]. rewrite app_nil_r.
      now rewrite <- Hseen.
  - (* the first sentence of the text *)
    pose proof (current_empty Hg Epos) as ->.
    exists gs, [trim sentence]. repeat split.
    + now rewrite join_single.
    + assumption.
    + right. split; [now apply sgroup_single | now left].
    + now rewrite <- Hseen, app_nil_r.
  - (* the sentence fits: append it after the separator *)
    pose proof (current_full Hg Epos) as [Hsg Hb].
    exists gs, (g ++ [trim sentence]). repeat split.
    + rewrite join_app by (try apply Hsg; discriminate).
      now rewrite join_single.
    + assumption.
    + right. split; [apply sgroup_app; auto using sgroup_single|].
      right. rewrite join_app by (try apply Hsg; discriminate).
      rewrite join_single, !length_app. cbn [sep length].
      replace (length (join g) + (2 + length (trim sentence)) - 2)
        with (length (join g) + length (trim sentence)) by lia.
      exact Egt.
    + now rewrite <- Hseen, app_assoc.
  - pose proof (current_empty Hg Epos) as ->.
    exists gs, [trim sentence]. repeat split.
    + now rewrite join_single.
    + assumption.
    + right. split; [now apply sgroup_single | now left].
    + now rewrite <- Hseen, app_nil_r.
Qed.

Lemma build_loop_inv sentences : forall seen st,
  BuildInv chunkSize seen st ->
  Forall (fun s => Sentence (trim s)) sentences ->
  BuildInv chunkSize (seen ++ map trim sentences)
           (fold_left (buildStep chunkSize) sentences st).
Proof.
  induction sentences as [|s ss IH]; intros seen st Hinv Hall; cbn.
  - now rewrite app_nil_r.
  - inversion Hall as [|? ? Hs Hss]; subst.
    replace (seen ++ trim s :: map trim ss)
      with ((seen ++ [trim s]) ++ map trim ss)
      by now rewrite <- app_assoc.
    apply IH; [now apply buildStep_inv | assumption].
Qed.

(** The provisional chunks are the joins of consecutive groups of the
    trimmed sentences, whole and in order. *)
Lemma buildChunks_groups sentences :
  Forall (fun s => Sentence (trim s)) sentences ->
  exists gs,
    buildChunks chunkSize sentences = map join gs
    /\ Forall (BGroup chunkSize) gs
    /\ concat gs = map trim sentences.
Proof.
  intros Hall.
  assert (H0 : BuildInv chunkSize [] ([], [])).
  { exists [], []. repeat split; [constructor | now left]. }
  pose proof (build_loop_inv H0 Hall) as (gs & g & Est & Hgs & Hg & Hseen).
  unfold buildChunks, initial. rewrite Est. cbn [app] in Hseen.
  destruct (0 <? length (trim (join g))) eqn:Epos.
  - assert (Hb : BGroup chunkSize g).
    { destruct Hg as [-> | Hb]; [discriminate | exact Hb]. }
    exists (gs ++ [g]). repeat split.
    + rewrite map_app. cbn [map].
      now rewrite (trim_clean_id (join_clean (proj1 Hb))).
    + apply Forall_app. split; [assumption | now constructor].
    + rewrite concat_app. cbn [concat]. now rewrite app_nil_r.
  - assert (E : g = []).
    { destruct Hg as [E | [Hsg _]]; [exact E|].
      rewrite (trim_clean_id (join_clean Hsg)) in Epos.
      apply join_length_pos in Hsg. apply Nat.ltb_ge in Epos. lia. }
    subst g. exists gs. repeat split; [assumption|].
    now rewrite app_nil_r in Hseen.
Qed.

End Builder.

(** ** The second loop: merging *)

Section Merger.

Lemma mergeStep_inv seen st g :
  MergeInv seen st -> SGroup g ->
  MergeInv (seen ++ g) (mergeStep st (join g)).
Proof.
  intros (hs & h & -> & Hhs & Hh & Hseen) Hg.
  unfold mergeStep.
  destruct (0 <? length (join h)) eqn:Epos.
  - assert (Hsg : SGroup h).
    { destruct Hh as [-> | Hsg]; [discriminate | exact Hsg]. }
    destruct (length (join h) + length (join g) <? 100); cbn [andb].
    + exists hs, (h ++ g). repeat split.
      * now rewrite join_app by (apply Hsg || apply Hg).
      * assumption.
      * right. now apply sgroup_app.
      * now rewrite <- Hseen, app_assoc.
    + exists (hs ++ [h]), g. repeat split.
      * rewrite map_app. reflexivity.
      * apply Forall_app. split; [assumption | now constructor].
      * now right.
      * rewrite concat_app. cbn [concat]. rewrite app_nil_r.
        now rewrite <- Hseen.
  - assert (E : h = []).
    { destruct Hh as [E | Hsg]; [exact E|].
      apply join_length_pos in Hsg. apply Nat.ltb_ge in Epos. lia. }
    subst h. rewrite andb_false_r.
    exists hs, g. repeat split; [assumption | now right|].
    now rewrite <- Hseen, app_nil_r.
Qed.

Lemma merge_loop_inv gs : forall seen st,
  MergeInv seen st -> Forall SGroup gs ->
  MergeInv (seen ++ concat gs) (fold_left mergeStep (map join gs) st).
Proof.
  induction gs as [|g gs IH]; intros seen st Hinv Hall; cbn.
  - now rewrite app_nil_r.
  - inversion Hall as [|? ? Hg Hgs]; subst.
    rewrite app_assoc. apply IH; [now apply mergeStep_inv | assumption].
Qed.

(** Merging regroups the sentences and neither drops nor reorders one. *)
Lemma mergeChunks_groups gs :
  Forall SGroup gs ->
  exists hs,
    mergeChunks (map join gs) = map join hs
    /\ Forall SGroup hs
    /\ concat hs = concat gs.
Proof.
  intros Hall.
  assert (H0 : MergeInv [] ([], [])).
  { exists [], []. repeat split; [constructor | now left]. }
  pose proof (merge_loop_inv H0 Hall) as (hs & h & Est & Hhs & Hh & Hseen).
  unfold mergeChunks, initial. rewrite Est. cbn [app] in Hseen.
  destruct (0 <? length (join h)) eqn:Epos.
  - assert (Hsg : SGroup h).
    { destruct Hh as [-> | Hsg]; [discriminate | exact Hsg]. }
    exists (hs ++ [h]). repeat split.
    + now rewrite map_app.
    + apply Forall_app. split; [assumption | now constructor].
    + rewrite concat_app. cbn [concat]. now rewrite app_nil_r.
  - assert (E : h = []).
    { destruct Hh as [E | Hsg]; [exact E|].
      apply join_length_pos in Hsg. apply Nat.ltb_ge in Epos. lia. }
    subst h. exists hs. repeat split; [assumption|].
    now rewrite app_nil_r in Hseen.
Qed.

End Merger.

(** ** The pipeline *)

Section Pipeline.

Lemma BGroup_SGroup chunkSize gs :
  Forall (BGroup chunkSize) gs -> Forall SGroup gs.
Proof. apply Forall_impl. now intros g [H _]. Qed.

(** With a sentence in the text the result is the merged chunks, which
    are joins of consecutive groups of the trimmed sentences. *)
Lemma chunkText_groups text chunkSize :
  sentencesOf text <> [] ->
  exists hs,
    chunkText text chunkSize = map join hs
    /\ Forall SGroup hs
    /\ concat hs = map trim (sentencesOf text).
Proof.
  intros Hne.
  destruct (buildChunks_groups chunkSize (sentencesOf_Sentence text))
    as (gs & Eb & Hgs & Hcat).
  destruct (mergeChunks_groups (BGroup_SGroup Hgs)) as (hs & Em & Hhs & Hcat').
  exists hs. repeat split; [|assumption | congruence].
  unfold chunkText. rewrite Eb, Em.
  destruct hs as [|h hs]; [|reflexivity].
  exfalso. apply Hne. cbn in Hcat'. rewrite <- Hcat' in Hcat.
  destruct (sentencesOf text); [reflexivity | discriminate].
Qed.

(** Without one the loops emit nothing. *)
Lemma chunkText_fallback text chunkSize :
  sentencesOf text = [] ->
  chunkText text chunkSize = [substring0 text chunkSize].
Proof. intros E. unfold chunkText. now rewrite E. Qed.

End Pipeline.

(** C4: when the text has at least one sentence, the chunks are the
    [". "]-joins of consecutive non-empty groups of the segmenter's trimmed
    sentences, in order, with none lost, repeated or moved; taking the
    separators out again (segmenting each chunk) gives back exactly the
    trimmed sentences of the text. *)
Theorem chunks_reconstruct_sentences text chunkSize :
  sentencesOf text <> [] ->
  (exists groups,
      chunkText text chunkSize = map join groups
      /\ Forall (fun g => g <> []) groups
      /\ concat groups = map trim (sentencesOf text))
  /\ flat_map (fun chunk => map trim (sentencesOf chunk))
              (chunkText text chunkSize)
     = map trim (sentencesOf text).
Proof.
  intros Hne.
  destruct (@chunkText_groups text chunkSize Hne) as (hs & E & Hhs & Hcat).
  split.
  - exists hs. repeat split; [assumption| |assumption].
    revert Hhs. apply Forall_impl. now intros g [H _].
  - rewrite E, <- Hcat. clear E Hcat.
    induction Hhs as [|h hs Hh Hhs IH]; [reflexivity|].
    cbn [map flat_map concat]. now rewrite (resegment Hh), IH.
Qed.

Lemma chunks_reconstruct_sentences_witness :
  sentencesOf (lit "A. B. C.") <> []
  /\ flat_map (fun chunk => map trim (sentencesOf chunk))
              (chunkText (lit "A. B. C.") (of_nat 3))
     = map trim (sentencesOf (lit "A. B. C.")).
Proof.
  assert (H : sentencesOf (lit "A. B. C.") <> [])
    by (vm_compute; discriminate).
  split; [exact H|].
  exact (proj2 (@chunks_reconstruct_sentences _ (of_nat 3) H)).
Defined.

(** C6: the pipeline never returns the empty sequence, whatever the text
    and the chunk size. *)
Theorem chunkText_nonempty text chunkSize :
  1 <= length (chunkText text chunkSize).
Proof.
  unfold chunkText.
  destruct (0 <? length (mergeChunks _)) eqn:E.
  - now apply Nat.ltb_lt in E.
  - cbn. lia.
Qed.

(** C8: on the empty text the pipeline returns one chunk, the empty
    string, for every chunk size; it is the fallback of line 119, the
    first [chunkSize] code units of the text, taken because the text has
    no sentence. *)
Theorem chunkText_empty chunkSize :
  chunkText (lit "") chunkSize = [lit ""]
  /\ sentencesOf (lit "") = []
  /\ chunkText (lit "") chunkSize = [substring0 (lit "") chunkSize].
Proof.
  assert (E : sentencesOf (lit "") = []) by reflexivity.
  assert (F : chunkText (lit "") chunkSize = [substring0 (lit "") chunkSize])
    by now apply chunkText_fallback.
  split; [|split; [exact E | exact F]]. rewrite F. f_equal.
  destruct chunkSize as [q| | |]; cbn; try reflexivity.
  now destruct (Z.to_nat _).
Qed.

(** C7: on ["A. B. C."] with [chunkSize] 500 the pipeline returns the one
    chunk ["A. B. C"]: the sentences trimmed and joined by [". "], the
    trailing delimiter dropped. *)
Theorem chunkText_A_B_C :
  chunkText (lit "A. B. C.") (of_nat 500) = [lit "A. B. C"]
  /\ sentencesOf (lit "A. B. C.") = [lit "A"; lit " B"; lit " C"]
  /\ split (lit "A. B. C.") = [lit "A"; lit " B"; lit " C"; lit ""].
Proof. repeat split; vm_compute; reflexivity. Qed.

(** ** The run on untyped values *)

Section DynamicRun.

Import Dynamic.

Lemma num_gt_zero n : num_gt (of_nat n) (of_nat 0) = (0 <? n).
Proof. destruct n; reflexivity. Qed.

Lemma num_eq_zero n : num_eq (of_nat n) (of_nat 0) = (n =? 0).
Proof. destruct n; reflexivity. Qed.

Lemma num_gt_sum a b x :
  num_gt (num_add (of_nat a) (of_nat b)) x = len_gt (a + b) x.
Proof.
  destruct x as [q| | |]; try reflexivity.
  unfold num_gt, num_lt, num_add, of_nat, len_gt. f_equal.
  unfold Qle_bool, Qplus, inject_Z. cbn [Qnum Qden Pos.mul].
  rewrite Nat2Z.inj_add. f_equal. lia.
Qed.

Lemma num_lt_sum a b k :
  num_lt (num_add (of_nat a) (of_nat b)) (of_nat k) = (a + b <? k).
Proof.
  unfold num_lt, num_add, of_nat, Qle_bool, Qplus, inject_Z.
  cbn [Qnum Qden Pos.mul].
  destruct (Z.leb_spec (Z.of_nat k * 1) ((Z.of_nat a * 1 + Z.of_nat b * 1) * 1));
    destruct (Nat.ltb_spec (a + b) k); cbn [negb]; try reflexivity; lia.
Qed.


Lemma filterM_run (l : list jsstring) :
  filterM (fun s => t <- callTrim s ;; n <- getLength t ;; gt n zero)
          (map Str l)
  = Normal (map Str (filter (fun s => 0 <? length (trim s)) l)).
Proof.
  induction l as [|x l IH]; [reflexivity|].
  cbn [map filterM callTrim getLength gt zero bind filter].
  rewrite IH, num_gt_zero. cbn [bind truthy].
  now destruct (0 <? length (trim x)).
Qed.

Lemma buildBody_run chunkSize st sentence :
  buildBody (Number chunkSize) (inject st) (Str sentence)
  = Normal (inject (buildStep chunkSize st sentence)).
Proof.
  destruct st as [chunks currentChunk].
  unfold buildBody, buildStep, inject, zero.
  cbn [fst snd callTrim getLength strictEq zero bind].
  rewrite num_eq_zero. cbn [truthy].
  destruct (length (trim sentence) =? 0); [reflexivity|].
  cbn [add gt bind]. rewrite num_gt_sum, num_gt_zero.
  unfold and_then. cbn [truthy].
  destruct (len_gt (length currentChunk + length (trim sentence)) chunkSize);
    cbn [bind truthy andb];
    destruct (0 <? length currentChunk); cbn [bind truthy callTrim callPush add fst snd];
    rewrite ?map_app; reflexivity.
Qed.

Lemma build_loop_run chunkSize sentences : forall st,
  foldM (buildBody (Number chunkSize)) (map Str sentences) (inject st)
  = Normal (inject (fold_left (buildStep chunkSize) sentences st)).
Proof.
  induction sentences as [|s sentences IH]; intros st; [reflexivity|].
  cbn [map foldM fold_left]. rewrite buildBody_run. cbn [bind]. apply IH.
Qed.

Lemma mergeBody_run st chunk :
  mergeBody (inject st) (Str chunk) = Normal (inject (mergeStep st chunk)).
Proof.
  destruct st as [mergedChunks tempChunk].
  unfold mergeBody, mergeStep, inject, zero.
  cbn [fst snd getLength add lt gt bind].
  rewrite num_lt_sum, num_gt_zero. unfold and_then. cbn [truthy].
  destruct (length tempChunk + length chunk <? 100);
    cbn [bind truthy andb];
    destruct (0 <? length tempChunk);
    cbn [bind truthy callPush add fst snd gt getLength zero];
    rewrite ?num_gt_zero; cbn [bind truthy callPush];
    rewrite ?map_app; reflexivity.
Qed.

Lemma merge_loop_run chunks : forall st,
  foldM mergeBody (map Str chunks) (inject st)
  = Normal (inject (fold_left mergeStep chunks st)).
Proof.
  induction chunks as [|c chunks IH]; intros st; [reflexivity|].
  cbn [map foldM fold_left]. rewrite mergeBody_run. cbn [bind]. apply IH.
Qed.

(** The run on a string and a number: no step throws, and the value
    returned is the array of the chunks. *)
Lemma chunkText_dyn_run text chunkSize :
  chunkText_dyn (Str text) (Number chunkSize)
  = Normal (Array (map Str (chunkText text chunkSize))).
Proof.
  unfold chunkText_dyn, chunkText, buildChunks, mergeChunks, sentencesOf.
  fold zero.
  cbn [callSplit bind callFilter]. rewrite filterM_run. cbn [bind forOf].
  change (Array [], Str (lit "")) with (inject initial).
  rewrite build_loop_run. cbn [bind].
  destruct (fold_left (buildStep chunkSize) _ initial) as [chunks currentChunk].
  unfold inject at 1. cbn [fst snd callTrim getLength gt zero bind].
  rewrite num_gt_zero. cbn [truthy].
  set (provisional := if 0 <? length (trim currentChunk)
                      then chunks ++ [trim currentChunk] else chunks).
  assert (E : (if 0 <? length (trim currentChunk)
               then callPush (Array (map Str chunks)) (Str (trim currentChunk))
               else Normal (Array (map Str chunks)))
              = Normal (Array (map Str provisional))).
  { unfold provisional. destruct (0 <? length (trim currentChunk));
      cbn [callTrim callPush bind]; rewrite ?map_app; reflexivity. }
  rewrite E. clear E. cbn [bind forOf]. rewrite merge_loop_run. cbn [bind].
  destruct (fold_left mergeStep provisional initial) as [mergedChunks tempChunk].
  unfold inject. cbn [fst snd getLength gt zero bind].
  rewrite num_gt_zero. cbn [truthy].
  set (merged := if 0 <? length tempChunk
                 then mergedChunks ++ [tempChunk] else mergedChunks).
  assert (E : (if 0 <? length tempChunk
               then callPush (Array (map Str mergedChunks)) (Str tempChunk)
               else Normal (Array (map Str mergedChunks)))
              = Normal (Array (map Str merged))).
  { unfold merged. destruct (0 <? length tempChunk);
      cbn [callPush]; rewrite ?map_app; reflexivity. }
  rewrite E. clear E. cbn [bind getLength gt zero].
  rewrite length_map, num_gt_zero. cbn [truthy].
  destruct (0 <? length merged); reflexivity.
Qed.

End DynamicRun.

(** C9: run on JavaScript values, where every property read and method
    call can throw, the body of [chunkText] ends normally on every string
    and every number, NaN and the infinities included, and also when the
    second argument is left out: no step throws a [TypeError] or meets an
    operand of the wrong kind, and what it returns is an array of strings,
    the chunks, with at least one element, never [null] or [undefined].
    The error paths are there: on [null], [undefined] or a number in place
    of the text the first call throws. *)
Theorem chunkText_total (text : jsstring) (chunkSize : number) :
  Dynamic.chunkText_dyn (Dynamic.Str text) (Dynamic.Number chunkSize)
  = Dynamic.Normal
      (Dynamic.Array (map Dynamic.Str (chunkText text chunkSize)))
  /\ Dynamic.chunkText_dyn (Dynamic.Str text) Dynamic.Undefined
     = Dynamic.Normal
         (Dynamic.Array (map Dynamic.Str (chunkTextDefault text)))
  /\ 1 <= length (chunkText text chunkSize)
  /\ Dynamic.chunkText_dyn Dynamic.Null (Dynamic.Number chunkSize)
     = Dynamic.TypeError
  /\ Dynamic.chunkText_dyn Dynamic.Undefined (Dynamic.Number chunkSize)
     = Dynamic.TypeError
  /\ Dynamic.chunkText_dyn (Dynamic.Number chunkSize)
       (Dynamic.Number chunkSize)
     = Dynamic.TypeError.
Proof.
  split; [apply chunkText_dyn_run|].
  split; [exact (chunkText_dyn_run text defaultChunkSize)|].
  split; [|now repeat split].
  unfold chunkText. destruct (0 <? length (mergeChunks _)) eqn:E.
  - now apply Nat.ltb_lt in E.
  - cbn. lia.
Qed.

(** ** The soft size bound *)

Section SizeBound.

Lemma len_gt_of_nat n S : len_gt n (of_nat S) = (S <? n).
Proof.
  unfold len_gt, of_nat.
  destruct (Qle_bool (inject_Z (Z.of_nat n)) (inject_Z (Z.of_nat S))) eqn:E;
    cbn [negb]; symmetry.
  - apply Qle_bool_iff in E. rewrite <- Zle_Qle in E.
    apply Nat.ltb_ge. lia.
  - apply Nat.ltb_lt.
    destruct (Nat.lt_ge_cases S n) as [H | H]; [exact H|].
    assert (Qle_bool (inject_Z (Z.of_nat n)) (inject_Z (Z.of_nat S)) = true).
    { apply Qle_bool_iff. rewrite <- Zle_Qle. lia. }
    congruence.
Qed.

End SizeBound.

(** C3, as stated, fails: with [S = 2] the text ["a.b"] gives the chunk
    ["a. b"] of length 4, while [S] plus either sentence is 3; the two code
    units of the separator are not counted by the test of line 88. *)
Lemma overshoot_exceeds_sentence :
  buildChunks (of_nat 2) (sentencesOf (lit "a.b")) = [lit "a. b"]
  /\ ~ WithinOneSentence 2 (lit "a.b")
  /\ ~ WithinLastSentence 2 (lit "a.b").
Proof.
  split; [vm_compute; reflexivity|]. split; intros H.
  - unfold WithinOneSentence in H.
    change (buildChunks (of_nat 2) (sentencesOf (lit "a.b")))
      with [lit "a. b"] in H.
    inversion H as [|? ? (s & Hin & Hlen) _]; subst.
    change (map trim (sentencesOf (lit "a. b"))) with [lit "a"; lit "b"] in Hin.
    destruct Hin as [<- | [<- | []]]; cbn in Hlen; lia.
  - unfold WithinLastSentence in H.
    change (buildChunks (of_nat 2) (sentencesOf (lit "a.b")))
      with [lit "a. b"] in H.
    inversion H as [|? ? Hlen _]; subst. vm_compute in Hlen. lia.
Qed.

(** C3, amended: the provisional chunks are the [". "]-joins of consecutive
    non-empty groups of whole trimmed sentences, nothing cut off, and each
    chunk is either a single sentence or at most [S + 2] long. *)
Theorem provisional_chunk_bound text S :
  exists groups,
    buildChunks (of_nat S) (sentencesOf text) = map join groups
    /\ concat groups = map trim (sentencesOf text)
    /\ Forall (fun g => g <> []
                        /\ (length g = 1 \/ length (join g) <= S + 2))
              groups.
Proof.
  destruct (buildChunks_groups (of_nat S) (sentencesOf_Sentence text))
    as (gs & E & Hgs & Hcat).
  exists gs. repeat split; [assumption | assumption|].
  revert Hgs. apply Forall_impl. intros g [[Hne _] [H1 | Hb]].
  - split; [assumption | now left].
  - split; [assumption | right].
    rewrite len_gt_of_nat in Hb. apply Nat.ltb_ge in Hb. lia.
Qed.

(** ** The merge threshold *)

Section Threshold.

Lemma mergeStep_eq merged temp chunk :
  mergeStep (merged, temp) chunk
  = if ((length temp + length chunk <? 100) && (0 <? length temp))%bool
    then (merged, temp ++ sep ++ chunk)
    else (if 0 <? length temp then merged ++ [temp] else merged, chunk).
Proof. reflexivity. Qed.

Lemma merge_loop_spec chunks : forall st,
  (let '(merged', temp') := fold_left mergeStep chunks st in
   merged' ++ (if 0 <? length temp' then [temp'] else []))
  = fst st ++ Spec.mergeFrom 100 (snd st) chunks.
Proof.
  induction chunks as [|chunk rest IH]; intros [merged temp].
  - reflexivity.
  - cbn [fold_left Spec.mergeFrom fst snd]. rewrite mergeStep_eq, IH.
    destruct ((length temp + length chunk <? 100) && (0 <? length temp))%bool.
    + reflexivity.
    + cbn [fst snd]. destruct (0 <? length temp).
      * now rewrite <- app_assoc.
      * reflexivity.
Qed.

Lemma mergeChunks_spec chunks :
  mergeChunks chunks = Spec.mergeFrom 100 [] chunks.
Proof.
  unfold mergeChunks. pose proof (merge_loop_spec chunks initial) as H.
  destruct (fold_left mergeStep chunks initial) as [merged temp].
  cbn [initial fst snd app] in H. rewrite <- H.
  destruct (0 <? length temp); [reflexivity | now rewrite app_nil_r].
Qed.

Lemma sentencesOf_pair (a b : jsstring) :
  Sentence a -> Sentence b -> sentencesOf (a ++ lit "." ++ b) = [a; b].
Proof.
  intros (Ha1 & Ha2 & Ha3) (Hb1 & Hb2 & Hb3).
  unfold sentencesOf, split.
  rewrite split_go_stretch by assumption.
  change (lit "." ++ b) with (46%N :: b). cbn [split_go].
  change (is_delim 46%N) with true. cbn iota.
  rewrite <- (app_nil_r b) at 1. rewrite split_go_stretch by assumption.
  cbn [split_go]. rewrite !app_nil_r, !rev_involutive.
  cbn [filter]. rewrite (trim_clean_id Ha2), (trim_clean_id Hb2).
  destruct a; [congruence|]. destruct b; [congruence|]. reflexivity.
Qed.

Lemma sentence_length s : Sentence s -> 0 < length s.
Proof. intros [H _]. destruct s; [congruence | cbn; lia]. Qed.

Lemma buildChunks_pair chunkSize (a b : jsstring) :
  Sentence a -> Sentence b ->
  len_gt (length a + length b) chunkSize = true ->
  buildChunks chunkSize [a; b] = [a; b].
Proof.
  intros Ha Hb Hgt.
  pose proof (sentence_length Ha) as La. pose proof (sentence_length Hb) as Lb.
  destruct Ha as (_ & Ha & _), Hb as (_ & Hb & _).
  assert (E1 : buildStep chunkSize initial a = ([], a)).
  { unfold buildStep, initial. rewrite (trim_clean_id Ha).
    replace (length a =? 0) with false by (symmetry; apply Nat.eqb_neq; lia).
    change (0 <? length []) with false. now rewrite andb_false_r. }
  assert (E2 : buildStep chunkSize ([], a) b = ([a], b)).
  { unfold buildStep. rewrite (trim_clean_id Ha), (trim_clean_id Hb), Hgt.
    replace (length b =? 0) with false by (symmetry; apply Nat.eqb_neq; lia).
    replace (0 <? length a) with true by (symmetry; apply Nat.ltb_lt; lia).
    reflexivity. }
  unfold buildChunks. cbn [fold_left]. rewrite E1, E2, (trim_clean_id Hb).
  replace (0 <? length b) with true by (symmetry; apply Nat.ltb_lt; lia).
  reflexivity.
Qed.

Lemma mergeChunks_pair (a b : jsstring) :
  0 < length a -> 0 < length b ->
  mergeChunks [a; b]
  = if length a + length b <? 100 then [a ++ sep ++ b] else [a; b].
Proof.
  intros La Lb. unfold mergeChunks. cbn [fold_left].
  assert (E1 : mergeStep initial a = ([], a)).
  { unfold initial. rewrite mergeStep_eq.
    change (0 <? length []) with false. now rewrite andb_false_r. }
  rewrite E1, mergeStep_eq.
  replace (0 <? length a) with true by (symmetry; apply Nat.ltb_lt; lia).
  destruct (length a + length b <? 100); cbn [andb app].
  - replace (0 <? length (a ++ sep ++ b)) with true; [reflexivity|].
    symmetry. apply Nat.ltb_lt. rewrite length_app. lia.
  - now replace (0 <? length b) with true
      by (symmetry; apply Nat.ltb_lt; lia).
Qed.

End Threshold.

(** C2, as stated, fails: with [chunkSize = 10] the 5 to 1 relation would
    give the threshold 2 and leave ["aaaaaa"] and ["bbbbbb"] apart, but the
    code merges them, their 12 code units being below 100. *)
Lemma threshold_ignores_chunkSize :
  chunkText (lit "aaaaaa.bbbbbb") (of_nat 10) = [lit "aaaaaa. bbbbbb"]
  /\ Spec.pipelineWith (Spec.ratioThreshold 10) (lit "aaaaaa.bbbbbb") (of_nat 10)
     = [lit "aaaaaa"; lit "bbbbbb"]
  /\ ~ Spec.ThresholdFollowsChunkSize.
Proof.
  split; [vm_compute; reflexivity|]. split; [vm_compute; reflexivity|].
  intros H. specialize (H (lit "aaaaaa.bbbbbb") 10).
  vm_compute in H. discriminate.
Qed.

(** C2, amended: [chunkSize] only sets the soft upper bound; the merge
    threshold is the constant 100 of line 105 for every [chunkSize], NaN
    and the infinities included.  The pipeline is the specified one with
    [M = 100], and two sentences that the first loop separates are merged
    exactly when they total less than 100 code units. *)
Theorem merge_threshold_constant text chunkSize :
  chunkText text chunkSize = Spec.pipelineWith 100 text chunkSize
  /\ forall a b : jsstring,
       Sentence a -> Sentence b ->
       len_gt (length a + length b) chunkSize = true ->
       chunkText (a ++ lit "." ++ b) chunkSize
       = if length a + length b <? 100 then [a ++ sep ++ b] else [a; b].
Proof.
  split.
  - unfold chunkText, Spec.pipelineWith. now rewrite mergeChunks_spec.
  - intros a b Ha Hb Hgt. unfold chunkText.
    rewrite (sentencesOf_pair Ha Hb), (@buildChunks_pair chunkSize a b Ha Hb Hgt).
    rewrite (@mergeChunks_pair a b (sentence_length Ha) (sentence_length Hb)).
    now destruct (length a + length b <? 100).
Qed.

Lemma merge_threshold_constant_witness :
  chunkText (lit "aaaaaa.bbbbbb") (of_nat 10) = [lit "aaaaaa. bbbbbb"]
  /\ chunkText (lit "aaaaaa.bbbbbb") (of_nat 2) = [lit "aaaaaa. bbbbbb"].
Proof.
  assert (Ha : Sentence (lit "aaaaaa")).
  { split; [discriminate|]. split; [split; reflexivity|].
    repeat constructor. }
  assert (Hb : Sentence (lit "bbbbbb")).
  { split; [discriminate|]. split; [split; reflexivity|].
    repeat constructor. }
  split.
  - exact (proj2 (merge_threshold_constant (lit "") (of_nat 10)) _ _ Ha Hb
             eq_refl).
  - exact (proj2 (merge_threshold_constant (lit "") (of_nat 2)) _ _ Ha Hb
             eq_refl).
Defined.

(** ** The minimum chunk length *)

Section DefaultSize.

Lemma Apart_snoc l : forall (a b : jsstring),
  Apart (l ++ [a]) -> 100 <= length a + length b -> Apart (l ++ [a; b]).
Proof.
  induction l as [|x l IH]; intros a b H Hab.
  - cbn. auto.
  - destruct l as [|y l].
    + cbn in *. tauto.
    + destruct H as [Hxy H]. split; [exact Hxy|]. now apply IH.
Qed.

Lemma Apart_grow l : forall (a a' : jsstring),
  Apart (l ++ [a]) -> length a <= length a' -> Apart (l ++ [a']).
Proof.
  induction l as [|x l IH]; intros a a' H Hle.
  - exact I.
  - destruct l as [|y l].
    + cbn in *. split; [lia | exact I].
    + destruct H as [Hxy H]. split; [exact Hxy|]. now apply (IH a).
Qed.

Variable S : nat.
Hypothesis S_large : 99 <= S.

Lemma buildStep_apart st sentence :
  ApartInv st -> Sentence (trim sentence) ->
  ApartInv (buildStep (of_nat S) st sentence).
Proof.
  destruct st as [chunks cur]. intros Hinv (Hne & Hcl & _).
  unfold buildStep.
  replace (length (trim sentence) =? 0) with false
    by (symmetry; apply Nat.eqb_neq; destruct (trim sentence);
        [congruence | discriminate]).
  rewrite len_gt_of_nat.
  destruct Hinv as [[-> ->] | (Hcur & Hclean & Hap & Hall)].
  - rewrite andb_false_r. right. cbn [length Nat.ltb Nat.leb app].
    repeat split; try assumption; try apply Hcl. constructor.
  - replace (0 <? length cur) with true
      by (symmetry; apply Nat.ltb_lt; destruct cur;
          [congruence | cbn; lia]).
    rewrite andb_true_r.
    destruct (S <? length cur + length (trim sentence)) eqn:E.
    + apply Nat.ltb_lt in E. rewrite (trim_clean_id Hclean). right.
      repeat split; try assumption; try apply Hcl.
      * rewrite <- app_assoc. apply Apart_snoc; [assumption | lia].
      * apply Forall_app. split; [assumption | now constructor].
    + right. repeat split; try assumption.
      * destruct cur; [congruence | discriminate].
      * apply (proj1 (clean_app sep Hcur Hne Hclean Hcl)).
      * apply (proj2 (clean_app sep Hcur Hne Hclean Hcl)).
      * apply Apart_grow with (a := cur); [assumption|].
        rewrite length_app. lia.
Qed.

Lemma buildChunks_apart sentences :
  Forall (fun s => Sentence (trim s)) sentences ->
  Apart (buildChunks (of_nat S) sentences)
  /\ Forall (fun c => c <> []) (buildChunks (of_nat S) sentences).
Proof.
  intros Hall. unfold buildChunks.
  assert (H : ApartInv (fold_left (buildStep (of_nat S)) sentences initial)).
  { assert (H0 : ApartInv initial) by (left; split; reflexivity).
    revert H0. generalize initial.
    induction Hall as [|s ss Hs Hss IH]; intros st H0; [exact H0|].
    cbn [fold_left]. apply IH. now apply buildStep_apart. }
  destruct (fold_left (buildStep (of_nat S)) sentences initial)
    as [chunks cur].
  destruct H as [[-> ->] | (Hcur & Hclean & Hap & Hne)].
  - cbn. split; [exact I | constructor].
  - rewrite (trim_clean_id Hclean).
    replace (0 <? length cur) with true
      by (symmetry; apply Nat.ltb_lt; destruct cur;
          [congruence | cbn; lia]).
    split; [assumption|]. apply Forall_app. split; [assumption|].
    now constructor.
Qed.

Lemma mergeFrom_apart chunks : forall temp : jsstring,
  temp <> [] -> Forall (fun c => c <> []) chunks ->
  Apart (temp :: chunks) ->
  Spec.mergeFrom 100 temp chunks = temp :: chunks.
Proof.
  induction chunks as [|c chunks IH]; intros temp Ht Hall Hap.
  - cbn [Spec.mergeFrom]. destruct temp; [congruence | reflexivity].
  - destruct Hap as [Hsum Hap]. inversion Hall as [|? ? Hc Hcs]; subst.
    cbn [Spec.mergeFrom].
    replace (length temp + length c <? 100) with false
      by (symmetry; apply Nat.ltb_ge; lia).
    cbn [andb]. rewrite (IH c Hc Hcs Hap).
    destruct temp; [congruence | reflexivity].
Qed.

(** Under a chunk size of 99 or more the second loop changes nothing. *)
Lemma merge_changes_nothing sentences :
  Forall (fun s => Sentence (trim s)) sentences ->
  mergeChunks (buildChunks (of_nat S) sentences)
  = buildChunks (of_nat S) sentences.
Proof.
  intros Hall. destruct (buildChunks_apart Hall) as [Hap Hne].
  rewrite mergeChunks_spec.
  destruct (buildChunks (of_nat S) sentences) as [|c chunks];
    [reflexivity|].
  inversion Hne as [|? ? Hc Hcs]; subst.
  cbn [Spec.mergeFrom length Nat.add Nat.ltb Nat.leb andb app].
  rewrite andb_false_r. cbn [app].
  now apply mergeFrom_apart.
Qed.

End DefaultSize.

(** C1 at a text of two sentences, 450 times [a] and 60 times [b]: with
    the default chunk size the first loop separates them (510 > 500), the
    second loop keeps them apart (510 is not below 100), and the last
    chunk of the result has 60 code units.  With that chunk size the
    second loop in fact never merges: it returns the provisional chunks
    of every text as they are. *)
Theorem short_chunk_survives :
  let text := repeat 97%N 450 ++ lit "." ++ repeat 98%N 60 in
  chunkTextDefault text = [repeat 97%N 450; repeat 98%N 60]
  /\ map (@length char) (chunkTextDefault text) = [450; 60]
  /\ ~ MinimumViable 100 (chunkTextDefault text)
  /\ (forall text' : jsstring,
        mergeChunks (buildChunks defaultChunkSize (sentencesOf text'))
        = buildChunks defaultChunkSize (sentencesOf text')).
Proof.
  cbv zeta.
  assert (E : chunkTextDefault (repeat 97%N 450 ++ lit "." ++ repeat 98%N 60)
              = [repeat 97%N 450; repeat 98%N 60])
    by (vm_compute; reflexivity).
  rewrite E. split; [reflexivity|]. split; [|split].
  - cbn [map]. now rewrite !repeat_length.
  - intros [H | H]; [discriminate|].
    cbn [tl] in H. inversion H as [|? ? Hlen _]; subst.
    apply Nat.leb_le in Hlen. vm_compute in Hlen. discriminate.
  - intros text'. apply merge_changes_nothing; [lia|].
    apply sentencesOf_Sentence.
Qed.

(** ** Binary64 rounding

    The operations of [SpecFloat] on mantissas of at least 53 binary
    digits, as far as the sign of the fallback's score needs them. *)

Unset Implicit Arguments.

Section Rounding64.

Local Open Scope Z_scope.

Lemma shr_record_of_loc_m m l : shr_m (shr_record_of_loc m l) = m.
Proof. destruct l as [|[| |]]; reflexivity. Qed.

Lemma shr_1_m mrs : 0 <= shr_m mrs -> shr_m (shr_1 mrs) = shr_m mrs / 2.
Proof.
  destruct mrs as [m r s]. cbn [shr_m]. intros H.
  destruct m as [|[p|p|]|p]; cbn [shr_1 shr_m]; [reflexivity| | |reflexivity|lia].
  - rewrite Pos2Z.inj_xI. apply Z.div_unique with (r := 1); lia.
  - rewrite Pos2Z.inj_xO. apply Z.div_unique with (r := 0); lia.
Qed.

Lemma pow_xI p : 2 ^ Zpos p~1 = 2 * (2 ^ Zpos p * 2 ^ Zpos p).
Proof.
  assert (E : Zpos p~1 = 1 + Zpos p + Zpos p) by lia.
  rewrite E, !Z.pow_add_r by lia. rewrite Z.pow_1_r. lia.
Qed.

Lemma pow_xO p : 2 ^ Zpos p~0 = 2 ^ Zpos p * 2 ^ Zpos p.
Proof.
  assert (E : Zpos p~0 = Zpos p + Zpos p) by lia.
  now rewrite E, Z.pow_add_r by lia.
Qed.

Lemma iter_shr_m p : forall mrs,
  0 <= shr_m mrs ->
  shr_m (iter_pos shr_1 p mrs) = shr_m mrs / 2 ^ Zpos p.
Proof.
  induction p as [p IH|p IH|]; intros mrs H; cbn [iter_pos].
  - assert (Hp : 0 < 2 ^ Zpos p) by (apply Z.pow_pos_nonneg; lia).
    assert (H1 : 0 <= shr_m (shr_1 mrs)).
    { rewrite shr_1_m by assumption. apply Z.div_pos; lia. }
    assert (H2 : 0 <= shr_m (iter_pos shr_1 p (shr_1 mrs))).
    { rewrite IH by assumption. now apply Z.div_pos. }
    rewrite IH by assumption. rewrite IH by assumption.
    rewrite shr_1_m by assumption. rewrite pow_xI.
    rewrite !Z.div_div by lia. reflexivity.
  - assert (Hp : 0 < 2 ^ Zpos p) by (apply Z.pow_pos_nonneg; lia).
    assert (H2 : 0 <= shr_m (iter_pos shr_1 p mrs)).
    { rewrite IH by assumption. now apply Z.div_pos. }
    rewrite IH by assumption. rewrite IH by assumption. rewrite pow_xO.
    rewrite !Z.div_div by lia. reflexivity.
  - rewrite shr_1_m by assumption. now rewrite Z.pow_1_r.
Qed.

Lemma digits2_bounds p :
  2 ^ (Zpos (digits2_pos p) - 1) <= Zpos p < 2 ^ Zpos (digits2_pos p).
Proof.
  induction p as [p IH|p IH|]; cbn [digits2_pos].
  - rewrite Pos2Z.inj_succ.
    replace (Z.succ (Zpos (digits2_pos p)) - 1)
      with (Z.succ (Zpos (digits2_pos p) - 1)) by lia.
    rewrite !Z.pow_succ_r by lia.
    assert (E : Zpos p~1 = 2 * Zpos p + 1) by lia. rewrite E. lia.
  - rewrite Pos2Z.inj_succ.
    replace (Z.succ (Zpos (digits2_pos p)) - 1)
      with (Z.succ (Zpos (digits2_pos p) - 1)) by lia.
    rewrite !Z.pow_succ_r by lia.
    assert (E : Zpos p~0 = 2 * Zpos p) by lia. rewrite E. lia.
  - cbn. lia.
Qed.

Lemma digits2_unique p d :
  2 ^ (d - 1) <= Zpos p < 2 ^ d -> Zpos (digits2_pos p) = d.
Proof.
  intros [Hlo Hhi]. pose proof (digits2_bounds p) as [Blo Bhi].
  assert (Hd : 0 < d).
  { destruct (Z.lt_ge_cases 0 d) as [H|H]; [exact H|].
    exfalso. destruct (Z.eq_dec d 0) as [->|Hne].
    - cbn in Hhi. lia.
    - rewrite Z.pow_neg_r in Hhi by lia. lia. }
  destruct (Z.lt_trichotomy (Zpos (digits2_pos p)) d) as [H|[H|H]];
    [exfalso|exact H|exfalso].
  - assert (2 ^ Zpos (digits2_pos p) <= 2 ^ (d - 1))
      by (apply Z.pow_le_mono_r; lia).
    lia.
  - assert (2 ^ d <= 2 ^ (Zpos (digits2_pos p) - 1))
      by (apply Z.pow_le_mono_r; lia).
    lia.
Qed.

Lemma rne_bounds m l :
  m <= round_nearest_even m l <= m + 1.
Proof.
  destruct l as [|[| |]]; cbn [round_nearest_even]; try lia.
  destruct (Z.even m); lia.
Qed.

Lemma fexp_normal e : -1074 <= e - 53 -> fexp prec emax e = e - 53.
Proof. intros H. unfold fexp, SpecFloat.emin, prec, emax. lia. Qed.

(** The first shift of [binary_round_aux] on a mantissa of [d >= 53]
    digits in the normal range. *)
Lemma shr_fexp_pos P ex l d :
  Zpos (digits2_pos P) = d -> 53 <= d -> -1074 <= d + ex - 53 ->
  shr_m (fst (shr_fexp prec emax (Zpos P) ex l)) = Zpos P / 2 ^ (d - 53)
  /\ snd (shr_fexp prec emax (Zpos P) ex l) = ex + d - 53.
Proof.
  intros Hd Hd53 Hex. unfold shr_fexp. cbn [Zdigits2]. rewrite Hd.
  rewrite fexp_normal by lia.
  replace (d + ex - 53 - ex) with (d - 53) by lia.
  destruct (d - 53) as [|q|q] eqn:Eq; [| |lia].
  - cbn [shr fst snd]. rewrite shr_record_of_loc_m. cbn. split; [|lia].
    now rewrite Z.div_1_r.
  - cbn [shr fst snd]. rewrite iter_shr_m
      by (rewrite shr_record_of_loc_m; lia).
    rewrite shr_record_of_loc_m. split; [reflexivity | lia].
Qed.

Lemma quotient_53 P d :
  Zpos (digits2_pos P) = d -> 53 <= d ->
  2 ^ 52 <= Zpos P / 2 ^ (d - 53) < 2 ^ 53.
Proof.
  intros Hd Hd53. pose proof (digits2_bounds P) as [Blo Bhi].
  rewrite Hd in *.
  assert (Hpow : 0 < 2 ^ (d - 53)) by (apply Z.pow_pos_nonneg; lia).
  split.
  - apply Z.div_le_lower_bound; [assumption|].
    rewrite Z.mul_comm, <- Z.pow_add_r by lia.
    now replace (52 + (d - 53)) with (d - 1) by lia.
  - apply Z.div_lt_upper_bound; [assumption|].
    rewrite <- Z.pow_add_r by lia.
    now replace (d - 53 + 53) with d by lia.
Qed.

(** Rounding a positive mantissa of at least 53 digits: the result is
    finite (or infinite past the largest exponent) with the sign given,
    and its mantissa is the quotient or the quotient plus one. *)
Lemma round_aux_pos sx P ex d :
  Zpos (digits2_pos P) = d -> 53 <= d -> -1074 <= d + ex - 53 ->
  exists M E,
    binary_round_aux prec emax sx (Zpos P) ex loc_Exact
    = (if E <=? 971 then S754_finite sx M E else S754_infinity sx)
    /\ 2 ^ 52 <= Zpos M < 2 ^ 53
    /\ ((E = ex + d - 53
         /\ Zpos P / 2 ^ (d - 53) <= Zpos M <= Zpos P / 2 ^ (d - 53) + 1)
        \/ (E = ex + d - 52 /\ Zpos M = 2 ^ 52
            /\ Zpos P / 2 ^ (d - 53) + 1 = 2 ^ 53)).
Proof.
  intros Hd Hd53 Hex. unfold binary_round_aux.
  destruct (shr_fexp_pos P ex loc_Exact d Hd Hd53 Hex) as [Hm He].
  destruct (shr_fexp prec emax (Zpos P) ex loc_Exact) as [mrs' e'].
  cbn [fst snd] in Hm, He. subst e'.
  pose proof (quotient_53 P d Hd Hd53) as [Qlo Qhi].
  pose proof (rne_bounds (shr_m mrs') (loc_of_shr_record mrs')) as [Rlo Rhi].
  rewrite Hm in *.
  set (M0 := Zpos P / 2 ^ (d - 53)) in *.
  destruct (round_nearest_even M0 (loc_of_shr_record mrs')) as [|M1|M1] eqn:E1;
    [lia| |lia].
  destruct (Z.lt_ge_cases (Zpos M1) (2 ^ 53)) as [Hlt|Hge].
  - assert (Hd1 : Zpos (digits2_pos M1) = 53)
      by (apply digits2_unique; change (53 - 1) with 52; lia).
    destruct (shr_fexp_pos M1 (ex + d - 53) loc_Exact 53 Hd1) as [Hm2 He2];
      [lia|lia|].
    destruct (shr_fexp prec emax (Zpos M1) (ex + d - 53) loc_Exact)
      as [mrs'' e''].
    cbn [fst snd] in Hm2, He2. subst e''. rewrite Hm2.
    change (2 ^ (53 - 53)) with 1. rewrite Z.div_1_r.
    exists M1, (ex + d - 53).
    replace (ex + d - 53 + 53 - 53) with (ex + d - 53) by lia.
    split; [reflexivity|]. split; [lia|]. left. lia.
  - assert (HM1 : Zpos M1 = 2 ^ 53) by lia.
    assert (Hd1 : Zpos (digits2_pos M1) = 54).
    { apply digits2_unique. change (54 - 1) with 53. rewrite HM1.
      split; [lia|]. now apply Z.pow_lt_mono_r. }
    destruct (shr_fexp_pos M1 (ex + d - 53) loc_Exact 54 Hd1) as [Hm2 He2];
      [lia|lia|].
    destruct (shr_fexp prec emax (Zpos M1) (ex + d - 53) loc_Exact)
      as [mrs'' e''].
    cbn [fst snd] in Hm2, He2. subst e''. rewrite Hm2, HM1.
    change (2 ^ 53 / 2 ^ (54 - 53)) with (Zpos 4503599627370496).
    exists 4503599627370496%positive, (ex + d - 52).
    replace (ex + d - 53 + 54 - 53) with (ex + d - 52) by lia.
    split; [reflexivity|]. split; [cbn; lia|]. right.
    split; [reflexivity|]. split; [reflexivity|]. lia.
Qed.


Lemma iter_xO_value m d : Zpos (Pos.iter xO m d) = Zpos m * 2 ^ Zpos d.
Proof.
  induction d as [|d IH] using Pos.peano_ind.
  - cbn [Pos.iter]. rewrite Z.pow_1_r. lia.
  - rewrite Pos.iter_succ, Pos2Z.inj_succ, Z.pow_succ_r by lia.
    assert (E : Zpos (Pos.iter xO m d)~0 = 2 * Zpos (Pos.iter xO m d)) by lia.
    rewrite E, IH. lia.
Qed.

(** Rounding any positive mantissa at an exponent of the normal range
    keeps the sign and never gives zero or NaN. *)
Lemma binary_round_signed sx p ex :
  -1074 <= Zpos (digits2_pos p) + ex - 53 ->
  exists M E,
    binary_round prec emax sx p ex
    = (if E <=? 971 then S754_finite sx M E else S754_infinity sx).
Proof.
  intros Hex. unfold binary_round.
  rewrite fexp_normal by lia. unfold shl_align.
  destruct (Zpos (digits2_pos p) + ex - 53 - ex) as [|q|q] eqn:Eq.
  - destruct (round_aux_pos sx p ex 53) as (M & E & H & _); try lia.
    now exists M, E.
  - destruct (round_aux_pos sx p ex (Zpos (digits2_pos p)))
      as (M & E & H & _); try lia.
    now exists M, E.
  - assert (Hd : Zpos (digits2_pos (Pos.iter xO p q)) = 53).
    { apply digits2_unique. rewrite iter_xO_value.
      pose proof (digits2_bounds p) as [Blo Bhi].
      assert (Ed : Zpos (digits2_pos p) = 53 - Zpos q) by lia.
      rewrite Ed in *.
      assert (Hq : 0 < 2 ^ Zpos q) by (apply Z.pow_pos_nonneg; lia).
      assert (E1 : 2 ^ (53 - 1) = 2 ^ (53 - Zpos q - 1) * 2 ^ Zpos q).
      { rewrite <- Z.pow_add_r by lia. f_equal. lia. }
      assert (E2 : 2 ^ 53 = 2 ^ (53 - Zpos q) * 2 ^ Zpos q).
      { rewrite <- Z.pow_add_r by lia. f_equal. lia. }
      rewrite E1, E2. split.
      - apply Z.mul_le_mono_nonneg_r; lia.
      - apply Z.mul_lt_mono_pos_r; lia. }
    destruct (round_aux_pos sx (Pos.iter xO p q)
                (Zpos (digits2_pos p) + ex - 53) 53) as (M & E & H & _);
      try lia.
    now exists M, E.
Qed.

Lemma sub_one_negative y :
  AboveOne y ->
  SFltb (SFsub prec emax one64 y) (S754_zero false) = true.
Proof.
  intros (M & E & -> & HM & HE).
  assert (Hmin : Z.min (-52) E = -52) by lia.
  assert (Hsub : SFsub prec emax one64 (S754_finite false M E)
                 = binary_normalize prec emax
                     (Zpos 4503599627370496
                      - Zpos (fst (shl_align M E (-52)))) (-52) false).
  { unfold one64, SFsub. rewrite Hmin. reflexivity. }
  rewrite Hsub. clear Hsub.
  assert (Hneg : exists p,
    Zpos 4503599627370496 - Zpos (fst (shl_align M E (-52))) = Zneg p).
  { unfold shl_align.
    destruct (-52 - E) as [|q|q] eqn:Eq; cbn [fst].
    - assert (E = -52) by lia.
      destruct (Zpos 4503599627370496 - Zpos M) as [|p|p] eqn:Ed;
        [exfalso; change (2 ^ 52) with 4503599627370496 in *; lia
        |exfalso; change (2 ^ 52) with 4503599627370496 in *; lia
        |now exists p].
    - lia.
    - pose proof (iter_xO_value M q) as Hv.
      assert (Hq : 2 <= 2 ^ Zpos q).
      { change 2 with (2 ^ 1) at 1. apply Z.pow_le_mono_r; lia. }
      change (2 ^ 52) with 4503599627370496 in *.
      destruct (Zpos 4503599627370496 - Zpos (Pos.iter xO M q))
        as [|p|p] eqn:Ed; [exfalso; nia | exfalso; nia | now exists p]. }
  destruct Hneg as [p Hp]. rewrite Hp. cbn [binary_normalize].
  destruct (binary_round_signed true p (-52)) as (M' & E' & HR).
  { pose proof (digits2_bounds p). lia. }
  rewrite HR. now destruct (E' <=? 971).
Qed.

Lemma mul_tenth_above x :
  Counter x -> AboveOne (SFmul prec emax x tenth64).
Proof.
  intros [(m & e & -> & Hm & He & Hlow) | ->].
  2:{ eexists _, _. split; [vm_compute; reflexivity|].
      split; [vm_compute; discriminate|left; lia]. }
  unfold tenth64, SFmul. cbn [xorb].
  pose proof (Pos2Z.inj_mul m 7205759403792794) as HP.
  set (P := (m * 7205759403792794)%positive) in *.
  change (2 ^ 52) with 4503599627370496 in *.
  change (2 ^ 53) with 9007199254740992 in *.
  change (2 ^ 49) with 562949953421312 in *.
  destruct (Z_lt_le_dec (Zpos P) (2 ^ 105)) as [Hlt | Hge].
  - assert (Hd : Zpos (digits2_pos P) = 105).
    { apply digits2_unique.
      change (2 ^ (105 - 1)) with 20282409603651670423947251286016.
      change (2 ^ 105) with 40564819207303340847894502572032 in *. lia. }
    destruct (round_aux_pos false P (e + -56) 105) as (M & E & H & HM & HA);
      try lia.
    change (2 ^ (105 - 53)) with 4503599627370496 in *.
    change (2 ^ 105) with 40564819207303340847894502572032 in *.
    change (2 ^ 52) with 4503599627370496 in *.
    change (2 ^ 53) with 9007199254740992 in *.
    assert (HE : (E <=? 971) = true) by (apply Z.leb_le; lia).
    rewrite HE in H. exists M, E. split; [exact H|].
    change (2 ^ 52) with 4503599627370496.
    split; [lia|].
    assert (He' : -48 <= e) by lia.
    destruct HA as [[HE1 HM1] | [HE1 HM1]]; [|left; lia].
    destruct (Z.eq_dec e (-48)) as [-> | Hne]; [right | left; lia].
    split; [lia|].
    assert (7205759403792794 <= Zpos P / 4503599627370496)
      by (apply Z.div_le_lower_bound; lia).
    lia.
  - assert (Hd : Zpos (digits2_pos P) = 106).
    { apply digits2_unique.
      change (2 ^ (106 - 1)) with (2 ^ 105).
      change (2 ^ 105) with 40564819207303340847894502572032 in *.
      change (2 ^ 106) with 81129638414606681695789005144064 in *. lia. }
    destruct (round_aux_pos false P (e + -56) 106) as (M & E & H & HM & HA);
      try lia.
    change (2 ^ (106 - 53)) with 9007199254740992 in *.
    change (2 ^ 105) with 40564819207303340847894502572032 in *.
    change (2 ^ 52) with 4503599627370496 in *.
    change (2 ^ 53) with 9007199254740992 in *.
    assert (HE : (E <=? 971) = true) by (apply Z.leb_le; lia).
    rewrite HE in H. exists M, E. split; [exact H|].
    change (2 ^ 52) with 4503599627370496.
    split; [lia|].
    destruct HA as [[HE1 HM1] | [HE1 HM1]]; [|left; lia].
    destruct (Z.eq_dec e (-49)) as [-> | Hne]; [right | left; lia].
    split; [lia|].
    specialize (Hlow eq_refl).
    assert (4503599627370497 <= Zpos P / 9007199254740992)
      by (apply Z.div_le_lower_bound; lia).
    lia.
Qed.

Lemma add_one_counter x :
  Counter x -> Counter (SFadd prec emax x one64).
Proof.
  intros [(m & e & -> & Hm & He & Hlow) | ->].
  2:{ right. vm_compute. reflexivity. }
  assert (Hmax : (e = 0 /\ Zpos m = 9007199254740991)
                 \/ (e = 0 -> Zpos m <> 9007199254740991)) by lia.
  destruct Hmax as [[-> Hmax] | Hmax].
  { assert (m = 9007199254740991%positive) as -> by lia.
    right. vm_compute. reflexivity. }
  assert (Hmin : Z.min e (-52) = -52) by lia.
  assert (Hadd : SFadd prec emax (S754_finite false m e) one64
                 = binary_normalize prec emax
                     (Zpos (fst (shl_align m e (-52)))
                      + Zpos 4503599627370496) (-52) false).
  { unfold one64, SFadd. rewrite Hmin. reflexivity. }
  rewrite Hadd. clear Hadd. unfold shl_align.
  destruct (-52 - e) as [|q|q] eqn:Eq; try lia.
  cbn [fst]. 
  change (Zpos (Pos.iter xO m q) + Zpos 4503599627370496)
    with (Zpos (Pos.iter xO m q + 4503599627370496)).
  set (P := (Pos.iter xO m q + 4503599627370496)%positive).
  cbn [binary_normalize].
  assert (HQ : 0 < 2 ^ Zpos q) by (apply Z.pow_pos_nonneg; lia).
  assert (Ht : 2 ^ 52 = 2 ^ (52 - Zpos q) * 2 ^ Zpos q).
  { rewrite <- Z.pow_add_r by lia. f_equal. lia. }
  assert (Ht1 : 1 <= 2 ^ (52 - Zpos q) <= 2 ^ 49).
  { split.
    - change 1 with (2 ^ 0). apply Z.pow_le_mono_r; lia.
    - apply Z.pow_le_mono_r; lia. }
  assert (Ht2 : Zpos q = 52 -> 2 ^ (52 - Zpos q) = 1).
  { intros ->. reflexivity. }
  assert (HP : Zpos P = (Zpos m + 2 ^ (52 - Zpos q)) * 2 ^ Zpos q).
  { unfold P. rewrite Pos2Z.inj_add, iter_xO_value.
    change (Zpos 4503599627370496) with (2 ^ 52). rewrite Ht at 1. ring. }
  remember (2 ^ (52 - Zpos q)) as t eqn:Et.
  remember (2 ^ Zpos q) as Q eqn:EQ.
  change (2 ^ 49) with 562949953421312 in *.
  destruct (Z_lt_le_dec (Zpos m + t) (2 ^ 53)) as [Hlt | Hge].
  - assert (Hd : Zpos (digits2_pos P) = 53 + Zpos q).
    { apply digits2_unique. rewrite HP.
      replace (53 + Zpos q - 1) with (52 + Zpos q) by lia.
      rewrite !Z.pow_add_r by lia. rewrite <- EQ. split.
      - apply Z.mul_le_mono_nonneg_r; lia.
      - apply Z.mul_lt_mono_pos_r; lia. }
    unfold binary_round. rewrite Hd, fexp_normal by lia. unfold shl_align.
    destruct (53 + Zpos q + -52 - 53 - -52) as [|r|r] eqn:Er; try lia.
    destruct (round_aux_pos false P (-52) (53 + Zpos q))
      as (M & E & H & HM & HA); try lia.
    replace (53 + Zpos q - 53) with (Zpos q) in HA by lia.
    rewrite <- EQ in HA. rewrite HP, Z.div_mul in HA by lia.
    rewrite H.
    assert (HE : (E <=? 971) = true) by (apply Z.leb_le; lia).
    rewrite HE.
    change (2 ^ 52) with 4503599627370496 in *.
    change (2 ^ 53) with 9007199254740992 in *.
    destruct HA as [[HE1 HM1] | [HE1 [HM1 HM2]]].
    + left. exists M, E. split; [reflexivity|].
      split; [lia|]. split; [lia|]. intros HE49.
      assert (e = -49) by lia. specialize (Hlow H0). lia.
    + destruct (Z.eq_dec e 0) as [He0 | He0].
      * right. assert (M = 4503599627370496%positive) as -> by lia.
        f_equal. lia.
      * left. exists M, E. split; [reflexivity|].
        split; [lia|]. split; [lia|]. intros HE49. lia.
  - assert (Hd : Zpos (digits2_pos P) = 54 + Zpos q).
    { apply digits2_unique. rewrite HP.
      replace (54 + Zpos q - 1) with (53 + Zpos q) by lia.
      rewrite !Z.pow_add_r by lia. rewrite <- EQ. split.
      - apply Z.mul_le_mono_nonneg_r; lia.
      - apply Z.mul_lt_mono_pos_r; [lia|].
        change (2 ^ 53) with 9007199254740992 in *.
        change (2 ^ 54) with 18014398509481984. lia. }
    unfold binary_round. rewrite Hd, fexp_normal by lia. unfold shl_align.
    destruct (54 + Zpos q + -52 - 53 - -52) as [|r|r] eqn:Er; try lia.
    destruct (round_aux_pos false P (-52) (54 + Zpos q))
      as (M & E & H & HM & HA); try lia.
    replace (54 + Zpos q - 53) with (1 + Zpos q) in HA by lia.
    rewrite Z.pow_add_r in HA by lia. rewrite <- EQ in HA.
    rewrite HP, Z.div_mul_cancel_r in HA by lia.
    change (2 ^ 1) with 2 in HA.
    rewrite H.
    assert (HE : (E <=? 971) = true) by (apply Z.leb_le; lia).
    rewrite HE.
    change (2 ^ 52) with 4503599627370496 in *.
    change (2 ^ 53) with 9007199254740992 in *.
    assert (Hq52 : Zpos q <> 52).
    { intros Hq. specialize (Ht2 Hq). lia. }
    assert (Hhalf : (Zpos m + t) / 2 < 9007199254740991)
      by (apply Z.div_lt_upper_bound; lia).
    destruct HA as [[HE1 HM1] | [HE1 [HM1 HM2]]]; [|exfalso; lia].
    left. exists M, E. split; [reflexivity|].
    split; [lia|]. split; [lia|]. intros HE49. lia.
Qed.

End Rounding64.

Set Implicit Arguments.

(** ** The scores of the keyword fallback *)

Section Scores.

Variable value : Type.

Lemma mapFrom_length (hits : list (RawItem value)) : forall k,
  length (mapFrom k hits) = length hits.
Proof. induction hits as [|h hits IH]; intros k; cbn; [|rewrite IH]; reflexivity. Qed.

Lemma indexNumber_shift i : forall k,
  Nat.iter i (fun x => (x + 1)%float) (k + 1)%float
  = (Nat.iter i (fun x => (x + 1)%float) k + 1)%float.
Proof.
  intros k.
  exact (eq_sym (Nat.iter_succ_r i float (fun x => (x + 1)%float) k)).
Qed.

Lemma mapFrom_nth (hits : list (RawItem value)) : forall k i item,
  nth_error hits i = Some item ->
  nth_error (mapFrom k hits) i
  = Some (toResult item (Nat.iter i (fun x => (x + 1)%float) k)).
Proof.
  induction hits as [|h hits IH]; intros k i item H.
  - destruct i; discriminate.
  - destruct i as [|i]; cbn in *.
    + now inversion H.
    + rewrite (IH _ _ _ H). now rewrite indexNumber_shift.
Qed.

Lemma mapFrom_scores (hits1 : list (RawItem value)) :
  forall (hits2 : list (RawItem value)) k,
  length hits1 = length hits2 ->
  map (@score value) (mapFrom k hits1) = map (@score value) (mapFrom k hits2).
Proof.
  induction hits1 as [|h1 hits1 IH]; intros [|h2 hits2] k H;
    try discriminate; [reflexivity|].
  cbn. f_equal. apply IH. now inversion H.
Qed.

Lemma mapFrom_fields (hits : list (RawItem value)) : forall k,
  map (@content value) (mapFrom k hits) = map (@item_content value) hits
  /\ map (@documentId value) (mapFrom k hits)
     = map (@item_documentId value) hits
  /\ map (@chunkIndex value) (mapFrom k hits)
     = map (@item_chunkIndex value) hits.
Proof.
  induction hits as [|h hits IH]; intros k; [now repeat split|].
  destruct (IH (k + 1)%float) as (E1 & E2 & E3).
  cbn. now rewrite E1, E2, E3.
Qed.

End Scores.

Lemma exactScore_negative i : 11 <= i -> (exactScore i < 0)%Q.
Proof.
  intros H. unfold exactScore, Qlt, Qminus, Qplus, Qopp, Qmult, inject_Z.
  cbn [Qnum Qden]. lia.
Qed.

(** From position 11 on the index is a [Counter]. *)
Lemma indexNumber_counter i :
  11 <= i -> Counter (Prim2SF (indexNumber i)).
Proof.
  induction 1 as [|i Hi IH].
  - left. eexists _, _. split; [vm_compute; reflexivity|].
    split; [vm_compute; split; [discriminate|reflexivity]|].
    split; [lia|]. intros _. vm_compute. discriminate.
  - change (indexNumber (S i)) with (indexNumber i + 1)%float.
    rewrite add_spec. apply add_one_counter. exact IH.
Qed.

(** The binary64 score of line 215 is negative from position 11 on. *)
Lemma positionScore_negative i :
  11 <= i -> (positionScore (indexNumber i) <? 0)%float = true.
Proof.
  intros Hi. unfold positionScore.
  rewrite ltb_spec, sub_spec, mul_spec.
  apply sub_one_negative, mul_tenth_above, indexNumber_counter, Hi.
Qed.

(** C5, as stated, fails at position 10: the score there is exactly 0, in
    binary64 as over the rationals, so it is not negative. *)
Lemma score_at_ten_is_zero :
  positionScore (indexNumber 10) = 0%float
  /\ (exactScore 10 == 0)%Q
  /\ ~ NegativeFrom 10.
Proof.
  split; [reflexivity|]. split; [reflexivity|].
  intros H. specialize (H 10 (le_n 10)). vm_compute in H. discriminate.
Qed.

(** C5, amended: the hit at position [i] gets the score [1 - i * 0.1]
    with its fields copied; positions 0, 1 and 2 get 1.0, 0.9 and 0.8;
    position 10 gets 0; from position 11 on the binary64 score is negative,
    at every position and so also that of the result at position [i];
    nothing is clamped. *)
Theorem fallback_position_scores (value : Type) (run : client value)
    (query : jsstring) (limit : number) (hits : list (RawItem value))
    (i : nat) (item : RawItem value) :
  run (lit "*" ++ query ++ lit "*") limit = Resolved (Some hits) ->
  nth_error hits i = Some item ->
  exists results,
    fallbackKeywordSearch (Some run) query limit = Return results
    /\ length results = length hits
    /\ nth_error results i = Some (toResult item (indexNumber i))
    /\ score (toResult item (indexNumber i))
       = (1 - indexNumber i * 0.1)%float
    /\ map positionScore [indexNumber 0; indexNumber 1; indexNumber 2]
       = [1; 0.9; 0.8]%float
    /\ positionScore (indexNumber 10) = 0%float
    /\ NegativeFrom 11
    /\ (11 <= i ->
        exists r, nth_error results i = Some r
                  /\ (score r <? 0)%float = true).
Proof.
  intros Hrun Hnth. exists (mapFrom 0%float hits).
  split; [unfold fallbackKeywordSearch; now rewrite Hrun|].
  split; [apply mapFrom_length|].
  split; [now apply mapFrom_nth|].
  split; [reflexivity|]. split; [reflexivity|]. split; [reflexivity|].
  split; [intros j Hj; now apply positionScore_negative|].
  intros Hi. exists (toResult item (indexNumber i)).
  split; [now apply mapFrom_nth|].
  cbn [score toResult]. now apply positionScore_negative.
Qed.

Lemma fallback_position_scores_witness :
  exists results,
    fallbackKeywordSearch
      (Some (fun _ _ => Resolved (Some [mkRawItem 1 2 3 4 5;
                                        mkRawItem 6 7 8 9 10;
                                        mkRawItem 11 12 13 14 15])))
      (lit "cat") (of_nat 10) = Return results
    /\ map (@score nat) results = [1; 0.9; 0.8]%float.
Proof.
  destruct (@fallback_position_scores nat
              (fun _ _ => Resolved (Some [mkRawItem 1 2 3 4 5;
                                          mkRawItem 6 7 8 9 10;
                                          mkRawItem 11 12 13 14 15]))
              (lit "cat") (of_nat 10) _ 2 (mkRawItem 11 12 13 14 15)
              eq_refl eq_refl) as (results & E & _).
  exists results. split; [exact E|].
  cbn in E. injection E as <-. reflexivity.
Defined.

(** C10: the scores depend on the positions alone.  Two searches, with any
    queries, limits and clients, that get hit lists of the same length
    return the same sequence of scores, and each result carries the
    [content], [documentId] and [chunkIndex] of the hit at its position. *)
Theorem fallback_scores_by_position (value : Type)
    (run1 run2 : client value) (query1 query2 : jsstring)
    (limit1 limit2 : number) (hits1 hits2 : list (RawItem value)) :
  run1 (lit "*" ++ query1 ++ lit "*") limit1 = Resolved (Some hits1) ->
  run2 (lit "*" ++ query2 ++ lit "*") limit2 = Resolved (Some hits2) ->
  length hits1 = length hits2 ->
  exists results1 results2,
    fallbackKeywordSearch (Some run1) query1 limit1 = Return results1
    /\ fallbackKeywordSearch (Some run2) query2 limit2 = Return results2
    /\ map (@score value) results1 = map (@score value) results2
    /\ map (@content value) results1 = map (@item_content value) hits1
    /\ map (@documentId value) results1 = map (@item_documentId value) hits1
    /\ map (@chunkIndex value) results1 = map (@item_chunkIndex value) hits1
    /\ map (@content value) results2 = map (@item_content value) hits2
    /\ map (@documentId value) results2 = map (@item_documentId value) hits2
    /\ map (@chunkIndex value) results2 = map (@item_chunkIndex value) hits2.
Proof.
  intros H1 H2 Hlen.
  exists (mapFrom 0%float hits1), (mapFrom 0%float hits2).
  unfold fallbackKeywordSearch. rewrite H1, H2.
  destruct (mapFrom_fields hits1 0%float) as (A1 & A2 & A3).
  destruct (mapFrom_fields hits2 0%float) as (B1 & B2 & B3).
  repeat split; try assumption. now apply mapFrom_scores.
Qed.

Lemma fallback_scores_by_position_witness :
  exists results1 results2,
    fallbackKeywordSearch
      (Some (fun _ _ => Resolved (Some [mkRawItem 1 2 3 4 5;
                                        mkRawItem 6 7 8 9 10])))
      (lit "cat") (of_nat 10) = Return results1
    /\ fallbackKeywordSearch
         (Some (fun _ _ => Resolved (Some [mkRawItem 21 22 23 24 25;
                                           mkRawItem 26 27 28 29 30])))
         (lit "dog") (of_nat 5) = Return results2
    /\ map (@score nat) results1 = map (@score nat) results2.
Proof.
  destruct (@fallback_scores_by_position nat
              (fun _ _ => Resolved (Some [mkRawItem 1 2 3 4 5;
                                          mkRawItem 6 7 8 9 10]))
              (fun _ _ => Resolved (Some [mkRawItem 21 22 23 24 25;
                                          mkRawItem 26 27 28 29 30]))
              (lit "cat") (lit "dog") (of_nat 10) (of_nat 5) _ _
              eq_refl eq_refl eq_refl)
    as (r1 & r2 & E1 & E2 & Es & _).
  exists r1, r2. repeat split; assumption.
Defined.

(** ** File names and types *)

Section FileNames.

Lemma str_eqb_eq a : forall b, str_eqb a b = true <-> a = b.
Proof.
  induction a as [|x a IH]; intros [|y b]; cbn; split; intros H;
    try reflexivity; try discriminate.
  - apply andb_true_iff in H. destruct H as [Hx Hab].
    apply N.eqb_eq in Hx. apply IH in Hab. now subst.
  - inversion H; subst. rewrite N.eqb_refl. cbn. now apply IH.
Qed.

Lemma str_eqb_refl a : str_eqb a a = true.
Proof. now apply str_eqb_eq. Qed.

Lemma splitOn_go_nonempty d s : forall cur, splitOn_go d cur s <> [].
Proof.
  induction s as [|c s IH]; intros cur; cbn; [discriminate|].
  destruct (N.eqb c d); [discriminate | apply IH].
Qed.

Lemma pop_cons (A : Type) (x : A) l : l <> [] -> pop (x :: l) = pop l.
Proof. destruct l; [congruence | reflexivity]. Qed.

(** Whatever stands before a separator does not reach the last piece. *)
Lemma pop_splitOn_go d a : forall cur rest,
  pop (splitOn_go d cur (a ++ d :: rest)) = pop (splitOn_go d [] rest).
Proof.
  induction a as [|c a IH]; intros cur rest; cbn.
  - rewrite N.eqb_refl. apply pop_cons, splitOn_go_nonempty.
  - destruct (N.eqb c d).
    + rewrite pop_cons by apply splitOn_go_nonempty. apply IH.
    + apply IH.
Qed.

Lemma pop_splitOn_go_plain d s : forall cur,
  Forall (fun c => c <> d) s ->
  pop (splitOn_go d cur s) = Some (rev cur ++ s).
Proof.
  induction s as [|c s IH]; intros cur H; cbn.
  - now rewrite app_nil_r.
  - inversion H as [|? ? Hc Hs]; subst.
    destruct (N.eqb c d) eqn:E; [apply N.eqb_eq in E; congruence|].
    rewrite (IH (c :: cur) Hs). cbn. now rewrite <- app_assoc.
Qed.

Lemma typeOfExtension_supported ext :
  In (typeOfExtension ext) SUPPORTED_FILE_TYPES.
Proof.
  unfold typeOfExtension, SUPPORTED_FILE_TYPES. destruct ext as [e|].
  - repeat match goal with
           | |- context [if ?b then _ else _] => destruct b
           end; cbn; tauto.
  - cbn; tauto.
Qed.

End FileNames.

(** X1: whatever the file name, [getTypeFromName] answers one of the six
    MIME types of [SUPPORTED_FILE_TYPES]; an unknown or missing extension
    counts as [text/plain]. *)
Theorem getTypeFromName_supported
    (toLowerCase : jsstring -> jsstring) (filename : jsstring) :
  In (getTypeFromName toLowerCase filename) SUPPORTED_FILE_TYPES
  /\ (forall e, extensionOf toLowerCase filename = Some e ->
        ~ In e [lit "pdf"; lit "docx"; lit "doc"; lit "md"; lit "rtf"] ->
        getTypeFromName toLowerCase filename = mime_txt).
Proof.
  split; [apply typeOfExtension_supported|].
  intros e He Hn. unfold getTypeFromName. rewrite He. cbn [typeOfExtension].
  repeat match goal with
         | |- context [if str_eqb e ?l then _ else _] =>
             destruct (str_eqb e l) eqn:?;
             [match goal with
              | H : str_eqb e l = true |- _ =>
                  apply str_eqb_eq in H; subst e;
                  first [reflexivity | exfalso; apply Hn; cbn; auto 10]
              end|]
         end.
  reflexivity.
Qed.

(** X2: only what follows the last dot of the name is looked at.  With a
    dot-free [ext], the names [base.ext] and [ext] have the same
    extension, the lowered [ext]: a name without any dot is taken whole as
    its extension. *)
Theorem extension_after_last_dot
    (toLowerCase : jsstring -> jsstring) (base ext : jsstring) :
  Forall (fun c => c <> 46%N) ext ->
  extensionOf toLowerCase (base ++ lit "." ++ ext) = Some (toLowerCase ext)
  /\ extensionOf toLowerCase ext = Some (toLowerCase ext)
  /\ getTypeFromName toLowerCase (base ++ lit "." ++ ext)
     = getTypeFromName toLowerCase ext.
Proof.
  intros H.
  assert (E1 : pop (splitOn 46%N (base ++ lit "." ++ ext)) = Some ext).
  { unfold splitOn. change (lit "." ++ ext) with (46%N :: ext).
    rewrite pop_splitOn_go. now apply pop_splitOn_go_plain. }
  assert (E2 : pop (splitOn 46%N ext) = Some ext)
    by now apply pop_splitOn_go_plain.
  unfold getTypeFromName, extensionOf. rewrite E1, E2. now repeat split.
Qed.

Lemma extension_after_last_dot_witness :
  getTypeFromName toLowerCaseAscii (lit "my.report.PDF") = mime_pdf
  /\ getTypeFromName toLowerCaseAscii (lit "PDF") = mime_pdf.
Proof.
  assert (H : Forall (fun c : char => c <> 46%N) (lit "PDF")).
  { repeat constructor; discriminate. }
  destruct (@extension_after_last_dot toLowerCaseAscii (lit "my.report")
              (lit "PDF") H) as (_ & _ & E).
  split; [|reflexivity].
  change (lit "my.report" ++ lit "." ++ lit "PDF")
    with (lit "my.report.PDF") in E.
  rewrite E. reflexivity.
Defined.

Lemma getTypeFromName_supported_witness :
  getTypeFromName toLowerCaseAscii (lit "notes.XYZ") = mime_txt.
Proof.
  apply (proj2 (getTypeFromName_supported toLowerCaseAscii (lit "notes.XYZ"))
           (lit "xyz")).
  - reflexivity.
  - cbn. intros [H | [H | [H | [H | [H | []]]]]]; discriminate.
Defined.

(** ** Reading a file *)

Section Reading.

Lemma chunkText_length_pos text chunkSize :
  0 < length (chunkText text chunkSize).
Proof.
  unfold chunkText.
  destruct (0 <? length (mergeChunks _)) eqn:E.
  - now apply Nat.ltb_lt in E.
  - cbn. lia.
Qed.

End Reading.

(** X3: [processFile] returns at least one chunk for every file, whatever
    its type and whether the reads succeed; a text file whose read fails is
    not an error: its chunks are those of the message
    ["Error reading text file: "] followed by the name. *)
Theorem processFile_always_chunks
    (toLowerCase : jsstring -> jsstring) (file : File) :
  1 <= length (processFile toLowerCase file)
  /\ (file_text file = None ->
      extractText toLowerCase file = extractFromText file ->
      processFile toLowerCase file
      = chunkTextDefault (lit "Error reading text file: " ++ file_name file)).
Proof.
  split; [apply chunkText_length_pos|].
  intros Hread Hroute. unfold processFile. rewrite Hroute.
  unfold extractFromText. now rewrite Hread.
Qed.

Lemma processFile_always_chunks_witness :
  processFile toLowerCaseAscii (mkFile (lit "a.txt") (lit "") 3 None true)
  = [lit "Error reading text file: a. txt"].
Proof.
  rewrite (proj2 (processFile_always_chunks toLowerCaseAscii
                    (mkFile (lit "a.txt") (lit "") 3 None true))
             eq_refl eq_refl).
  vm_compute. reflexivity.
Defined.

(** ** Validating dropped files *)

Section Validation.

Variable toLowerCase : jsstring -> jsstring.

Lemma validate_loop files : forall valid invalid,
  fold_left (validateStep toLowerCase) files (valid, invalid)
  = (valid ++ filter (accepted toLowerCase) files,
     invalid ++ filter (fun f => negb (accepted toLowerCase f)) files).
Proof.
  induction files as [|f files IH]; intros valid invalid; cbn.
  - now rewrite !app_nil_r.
  - destruct (accepted toLowerCase f); cbn; rewrite IH;
      now rewrite <- app_assoc.
Qed.

Lemma validateFiles_filter files :
  validateFiles toLowerCase files
  = (filter (accepted toLowerCase) files,
     filter (fun f => negb (accepted toLowerCase f)) files).
Proof. unfold validateFiles. now rewrite validate_loop. Qed.

Lemma filter_split_length (A : Type) (p : A -> bool) l :
  length (filter p l) + length (filter (fun x => negb (p x)) l) = length l.
Proof.
  induction l as [|x l IH]; [reflexivity|]. cbn.
  destruct (p x); cbn; lia.
Qed.

Lemma filter_nil_forallb (A : Type) (p : A -> bool) l :
  (0 <? length (filter p l)) = existsb p l.
Proof.
  induction l as [|x l IH]; [reflexivity|]. cbn.
  destruct (p x); cbn; [reflexivity | exact IH].
Qed.

End Validation.

(** X5: [validateFiles] sorts every file into exactly one of the two
    lists, keeping the order: [valid] holds the files of a supported type
    (or named [.txt] or [.md]) of at most 10 MiB, [invalid] all the others,
    and no valid file is larger than [MAX_FILE_SIZE]. *)
Theorem validateFiles_partition
    (toLowerCase : jsstring -> jsstring) (files : list File) :
  let '(valid, invalid) := validateFiles toLowerCase files in
  valid = filter (accepted toLowerCase) files
  /\ invalid = filter (fun f => negb (accepted toLowerCase f)) files
  /\ length valid + length invalid = length files
  /\ Forall (fun f => (file_size f <= MAX_FILE_SIZE)%N
                      /\ isSupported toLowerCase f = true) valid.
Proof.
  rewrite validateFiles_filter. repeat split.
  - apply filter_split_length.
  - apply Forall_forall. intros f Hin. apply filter_In in Hin.
    destruct Hin as [_ Hacc]. unfold accepted in Hacc.
    apply andb_true_iff in Hacc. destruct Hacc as [Hs Hsize].
    split; [now apply N.leb_le in Hsize | exact Hs].
Qed.

(** X6: a drop uploads exactly the valid files, when there is one, and
    reports the number of the others, when there is one; both can happen
    for one drop.  A drop on a disabled zone does neither, and an input
    change without a file list leaves the state alone. *)
Theorem handleDrop_outcome
    (toLowerCase : jsstring -> jsstring) (files : list File) (over : bool) :
  let valid := filter (accepted toLowerCase) files in
  let invalid := filter (fun f => negb (accepted toLowerCase f)) files in
  handleDrop toLowerCase false files
  = {| dragOver := false;
       error := if forallb (accepted toLowerCase) files then None
                else Some (rejectedMessage (length files - length valid));
       uploaded := if existsb (accepted toLowerCase) files
                   then Some valid else None |}
  /\ handleDrop toLowerCase true files
     = {| dragOver := false; error := None; uploaded := None |}
  /\ handleFileInput toLowerCase over (Some files)
     = {| dragOver := over;
          error := error (handleDrop toLowerCase false files);
          uploaded := uploaded (handleDrop toLowerCase false files) |}
  /\ handleFileInput toLowerCase over None
     = {| dragOver := over; error := None; uploaded := None |}.
Proof.
  cbv zeta. unfold handleDrop, handleFileInput, validateAndUpload.
  rewrite validateFiles_filter. cbn [negb dragOver error uploaded].
  repeat split.
  rewrite !filter_nil_forallb.
  pose proof (filter_split_length (accepted toLowerCase) files) as Hlen.
  replace (length files - length (filter (accepted toLowerCase) files))
    with (length (filter (fun f => negb (accepted toLowerCase f)) files))
    by lia.
  replace (existsb (fun f => negb (accepted toLowerCase f)) files)
    with (negb (forallb (accepted toLowerCase) files)).
  - now destruct (forallb (accepted toLowerCase) files).
  - clear Hlen. induction files as [|f fs IH]; [reflexivity|]. cbn.
    rewrite <- IH. now destruct (accepted toLowerCase f).
Qed.

(** ** From validation to extraction *)

Section UntypedFiles.

Variable toLowerCase : jsstring -> jsstring.

Lemma extensionOf_last base ext :
  Forall (fun c => c <> 46%N) ext ->
  extensionOf toLowerCase (base ++ 46%N :: ext) = Some (toLowerCase ext).
Proof.
  intros H. unfold extensionOf, splitOn.
  rewrite pop_splitOn_go. now rewrite pop_splitOn_go_plain.
Qed.

Lemma endsWith_app s suffix :
  endsWith s suffix = true -> exists pre, s = pre ++ suffix.
Proof.
  unfold endsWith. intros H. apply andb_true_iff in H.
  destruct H as [_ H]. apply str_eqb_eq in H.
  exists (firstn (length s - length suffix) s).
  rewrite <- H at 2. symmetry. apply firstn_skipn.
Qed.

Lemma lowerAscii_dot c : lowerAscii c = 46%N -> c = 46%N.
Proof.
  unfold lowerAscii.
  destruct (N.leb 65 c && N.leb c 90)%bool eqn:E; [|auto].
  apply andb_true_iff in E. destruct E as [E _].
  apply N.leb_le in E. lia.
Qed.

Lemma lowerAscii_letter c x :
  lowerAscii c = x -> x <> 46%N -> c <> 46%N.
Proof. intros H Hx Hc. subst c. now apply Hx. Qed.

Lemma Ascii_app a b : Ascii (a ++ b) -> Ascii a /\ Ascii b.
Proof. apply Forall_app. Qed.

Hypothesis lowers : LowersAscii toLowerCase.

(** A name whose lowered form ends in a dot and a dot-free extension has
    that extension. *)
Lemma extension_of_suffix name ext :
  Ascii name -> Forall (fun c => c <> 46%N) ext ->
  endsWith (toLowerCase name) (46%N :: ext) = true ->
  extensionOf toLowerCase name = Some ext.
Proof.
  intros Hascii Hext Hends. rewrite (lowers Hascii) in Hends.
  apply endsWith_app in Hends. destruct Hends as [pre Hpre].
  unfold toLowerCaseAscii in Hpre.
  apply map_eq_app in Hpre. destruct Hpre as (p & t & -> & _ & Ht).
  destruct t as [|d t]; [discriminate|].
  cbn [map] in Ht. injection Ht as Hd Ht.
  apply lowerAscii_dot in Hd. subst d. subst ext.
  assert (Hplain : Forall (fun c => c <> 46%N) t).
  { rewrite Forall_map in Hext. revert Hext. apply Forall_impl.
    intros c Hc E. subst c. now apply Hc. }
  transitivity (Some (toLowerCase t));
    [exact (@extensionOf_last p t Hplain) | f_equal].
  apply Ascii_app in Hascii. destruct Hascii as [_ Hascii].
  inversion Hascii as [|? ? _ Ht']; subst.
  exact (lowers Ht').
Qed.

End UntypedFiles.

(** X7: a file that passes validation without a MIME type is one named
    [.txt] or [.md], and [processFile] then reads it as text: it is typed
    [text/plain] or [text/markdown] by its name and never goes through the
    PDF or Word extraction (names of ASCII code units). *)
Theorem untyped_valid_file_is_text
    (toLowerCase : jsstring -> jsstring) (file : File) :
  LowersAscii toLowerCase ->
  Ascii (file_name file) ->
  file_type file = [] ->
  accepted toLowerCase file = true ->
  (fileTypeOf toLowerCase file = mime_txt
   \/ fileTypeOf toLowerCase file = mime_md)
  /\ extractText toLowerCase file = extractFromText file.
Proof.
  intros Hlow Hascii Htype Hacc.
  unfold accepted, isSupported in Hacc. rewrite Htype in Hacc.
  change (includes supportedTypes []) with false in Hacc.
  cbn [orb] in Hacc. apply andb_true_iff in Hacc. destruct Hacc as [Hname _].
  assert (Hext : extensionOf toLowerCase (file_name file) = Some (lit "txt")
                 \/ extensionOf toLowerCase (file_name file)
                    = Some (lit "md")).
  { apply orb_true_iff in Hname. destruct Hname as [H | H].
    - left. apply (extension_of_suffix Hlow Hascii); [|exact H].
      repeat constructor; discriminate.
    - right. apply (extension_of_suffix Hlow Hascii); [|exact H].
      repeat constructor; discriminate. }
  unfold extractText, fileTypeOf, getTypeFromName. rewrite Htype.
  cbn [length Nat.ltb Nat.leb].
  destruct Hext as [-> | ->]; (split; [auto | reflexivity]).
Qed.

Lemma untyped_valid_file_is_text_witness :
  extractText toLowerCaseAscii
    (mkFile (lit "Notes.MD") (lit "") 5 (Some (lit "Hello.")) true)
  = lit "Hello.".
Proof.
  assert (Hlow : LowersAscii toLowerCaseAscii) by (intros s _; reflexivity).
  assert (Hascii : Ascii (lit "Notes.MD")).
  { repeat constructor. }
  exact (proj2 (@untyped_valid_file_is_text toLowerCaseAscii
                  (mkFile (lit "Notes.MD") (lit "") 5 (Some (lit "Hello."))
                     true)
                  Hlow Hascii eq_refl eq_refl)).
Defined.

(** ** The embedding *)

Section Embedding.

Lemma setAt_length l : forall i v, length (setAt i v l) = length l.
Proof.
  induction l as [|x l IH]; intros [|i] v; cbn; try reflexivity.
  now rewrite IH.
Qed.

Lemma fillFrom_length rest : forall i embedding,
  length (fillFrom i rest embedding) = length embedding.
Proof.
  induction rest as [|c rest IH]; intros i embedding; cbn [fillFrom];
    [reflexivity|].
  destruct (i <? 384); [|reflexivity]. now rewrite IH, setAt_length.
Qed.

Lemma fillFrom_full rest i embedding :
  384 <= i -> fillFrom i rest embedding = embedding.
Proof.
  intros H. destruct rest as [|c rest]; cbn [fillFrom]; [reflexivity|].
  now replace (i <? 384) with false by (symmetry; apply Nat.ltb_ge; lia).
Qed.

(** Code units from position 384 on are never read. *)
Lemma fillFrom_prefix chunk more : forall i embedding,
  384 <= i + length chunk ->
  fillFrom i (chunk ++ more) embedding = fillFrom i chunk embedding.
Proof.
  induction chunk as [|c chunk IH]; intros i embedding H;
    cbn [fillFrom app length] in *.
  - now rewrite fillFrom_full by lia.
  - destruct (i <? 384); [|reflexivity]. apply IH. lia.
Qed.

Lemma generateEmbedding_length text : length (generateEmbedding text) = 384.
Proof.
  unfold generateEmbedding. now rewrite length_map, fillFrom_length,
    repeat_length.
Qed.

End Embedding.

(** X8: the embedding of every text has 384 components, and the empty
    text gets the zero vector: the zero magnitude is replaced by 1, so
    nothing is divided by zero. *)
Theorem generateEmbedding_dimension (text : jsstring) :
  length (generateEmbedding text) = 384
  /\ generateEmbedding (lit "") = repeat 0%float 384
  /\ orElse 0%float 1%float = 1%float
  /\ orElse nan 1%float = 1%float.
Proof.
  split; [apply generateEmbedding_length|].
  repeat split; vm_compute; reflexivity.
Qed.

(** X9: only the first 384 code units of a text reach its embedding: a
    text of 384 code units or more and any continuation of it get the same
    vector. *)
Theorem generateEmbedding_prefix (chunk more : jsstring) :
  384 <= length chunk ->
  generateEmbedding (chunk ++ more) = generateEmbedding chunk.
Proof.
  intros H. unfold generateEmbedding.
  now rewrite fillFrom_prefix by (cbn; lia).
Qed.

Lemma generateEmbedding_prefix_witness :
  generateEmbedding (repeat 97%N 384 ++ lit "tail")
  = generateEmbedding (repeat 97%N 384).
Proof.
  apply generateEmbedding_prefix. rewrite repeat_length. lia.
Defined.

(** ** Indexing *)

Section Indexing.

Variable document : Document.

Lemma objectsFrom_sound chunks : forall i,
  Forall (fun obj =>
            i <= obj_chunkIndex obj
            /\ nth_error chunks (obj_chunkIndex obj - i)
               = Some (obj_content obj)
            /\ 0 < length (trim (obj_content obj))
            /\ obj_vector obj = generateEmbedding (obj_content obj)
            /\ obj_documentId obj = doc_id document
            /\ obj_class obj = className)
         (objectsFrom document i chunks).
Proof.
  induction chunks as [|chunk rest IH]; intros i; cbn [objectsFrom];
    [constructor|].
  assert (Hrest : Forall (fun obj =>
            i <= obj_chunkIndex obj
            /\ nth_error (chunk :: rest) (obj_chunkIndex obj - i)
               = Some (obj_content obj)
            /\ 0 < length (trim (obj_content obj))
            /\ obj_vector obj = generateEmbedding (obj_content obj)
            /\ obj_documentId obj = doc_id document
            /\ obj_class obj = className)
         (objectsFrom document (S i) rest)).
  { specialize (IH (S i)). revert IH. apply Forall_impl.
    intros obj (Hle & Hnth & Hrest). split; [lia|]. split; [|exact Hrest].
    replace (obj_chunkIndex obj - i) with (S (obj_chunkIndex obj - S i))
      by lia.
    exact Hnth. }
  destruct (length (trim chunk) =? 0) eqn:E; [exact Hrest|].
  apply Nat.eqb_neq in E.
  constructor; [|exact Hrest].
  cbn [obj_chunkIndex obj_content obj_vector obj_documentId obj_class].
  rewrite Nat.sub_diag. cbn [nth_error].
  split; [lia|]. split; [reflexivity|]. split; [lia|]. now repeat split.
Qed.

Lemma objectsFrom_all chunks : forall i,
  Forall (fun chunk => 0 < length (trim chunk)) chunks ->
  map obj_content (objectsFrom document i chunks) = chunks
  /\ map obj_chunkIndex (objectsFrom document i chunks)
     = seq i (length chunks).
Proof.
  induction chunks as [|chunk rest IH]; intros i H; cbn; [now split|].
  inversion H as [|? ? Hc Hrest]; subst.
  replace (length (trim chunk) =? 0) with false
    by (symmetry; apply Nat.eqb_neq; lia).
  destruct (IH (S i) Hrest) as [E1 E2]. cbn. now rewrite E1, E2.
Qed.

Lemma objectsFrom_blank chunks : forall i,
  Forall (fun chunk => trim chunk = []) chunks ->
  objectsFrom document i chunks = [].
Proof.
  induction chunks as [|chunk rest IH]; intros i H; cbn; [reflexivity|].
  inversion H as [|? ? Hc Hrest]; subst. rewrite Hc. cbn. now apply IH.
Qed.

End Indexing.

Section Blank.

Lemma dropws_blank text : Blank text -> dropws text = [].
Proof.
  induction 1 as [|c text Hc _ IH]; cbn [dropws]; [reflexivity|].
  rewrite Hc. exact IH.
Qed.

Lemma trim_blank text : Blank text -> trim text = [].
Proof. intros H. unfold trim. rewrite (dropws_blank H). reflexivity. Qed.

Lemma ws_not_delim c : is_ws c = true -> is_delim c = false.
Proof.
  unfold is_ws, is_delim. intros H.
  destruct (N.eqb c 46) eqn:E1; [apply N.eqb_eq in E1; subst; discriminate|].
  destruct (N.eqb c 33) eqn:E2; [apply N.eqb_eq in E2; subst; discriminate|].
  destruct (N.eqb c 63) eqn:E3; [apply N.eqb_eq in E3; subst; discriminate|].
  reflexivity.
Qed.

Lemma split_go_blank text : forall cur,
  Blank text -> split_go false cur text = [rev cur ++ text].
Proof.
  induction text as [|c text IH]; intros cur H; cbn [split_go].
  - now rewrite app_nil_r.
  - inversion H as [|? ? Hc Ht]; subst. rewrite (ws_not_delim c Hc).
    rewrite (IH _ Ht). cbn [rev]. now rewrite <- app_assoc.
Qed.

Lemma sentencesOf_blank text : Blank text -> sentencesOf text = [].
Proof.
  intros H. unfold sentencesOf, split. rewrite split_go_blank by assumption.
  cbn [rev app filter]. now rewrite trim_blank.
Qed.

Lemma Blank_firstn text : forall n, Blank text -> Blank (firstn n text).
Proof.
  induction text as [|c text IH]; intros [|n] H; cbn [firstn];
    try constructor.
  - now inversion H.
  - apply IH. now inversion H.
Qed.

End Blank.

(** X10: every object that [indexDocument] sends points back at its chunk:
    [chunkIndex] is the position of [content] in the chunk array, the
    content is not blank, the vector is the 384-component embedding of the
    content, and the document id is the document's.  Blank chunks are
    skipped without renumbering the others, and a batch is only sent when
    it holds an object. *)
Theorem indexed_objects_point_back
    (batch : batcher) (document : Document) (chunks : list jsstring)
    (sent : list IndexObject) :
  indexDocument (Some batch) document chunks = Return (Some sent) ->
  sent <> []
  /\ Forall (fun obj =>
               nth_error chunks (obj_chunkIndex obj) = Some (obj_content obj)
               /\ 0 < length (trim (obj_content obj))
               /\ obj_vector obj = generateEmbedding (obj_content obj)
               /\ length (obj_vector obj) = 384
               /\ obj_documentId obj = doc_id document)
            sent.
Proof.
  unfold indexDocument. intros H.
  destruct (0 <? length (objectsFrom document 0 chunks)) eqn:E;
    [|discriminate].
  destruct (batch (objectsFrom document 0 chunks)); [discriminate|].
  injection H as <-. split.
  - apply Nat.ltb_lt in E. intros E0. rewrite E0 in E. cbn in E. lia.
  - pose proof (objectsFrom_sound document chunks 0) as Hs.
    revert Hs. apply Forall_impl.
    intros obj (_ & Hnth & Hlen & Hvec & Hid & _).
    rewrite Nat.sub_0_r in Hnth. repeat split; try assumption.
    rewrite Hvec. apply generateEmbedding_length.
Qed.

Lemma indexed_objects_point_back_witness :
  Forall (fun obj =>
            nth_error [lit "one"; lit "  "; lit "three"] (obj_chunkIndex obj)
            = Some (obj_content obj)
            /\ 0 < length (trim (obj_content obj))
            /\ obj_vector obj = generateEmbedding (obj_content obj)
            /\ length (obj_vector obj) = 384
            /\ obj_documentId obj = lit "id")
         (objectsFrom
            (mkDocument (lit "id") (lit "a.txt") (lit "text/plain") 3
               (lit "2024") 3 (lit "..."))
            0 [lit "one"; lit "  "; lit "three"]).
Proof.
  exact (proj2 (@indexed_objects_point_back (fun _ => None)
                  (mkDocument (lit "id") (lit "a.txt") (lit "text/plain") 3
                     (lit "2024") 3 (lit "..."))
                  [lit "one"; lit "  "; lit "three"] _ eq_refl)).
Defined.

(** X11: when the text has a sentence, no chunk of [chunkText] is blank,
    so [indexDocument] indexes every chunk, in order, under the indices
    0, 1, 2, ... *)
Theorem chunks_all_indexed
    (document : Document) (text : jsstring) (chunkSize : number) :
  sentencesOf text <> [] ->
  map obj_content (objectsFrom document 0 (chunkText text chunkSize))
  = chunkText text chunkSize
  /\ map obj_chunkIndex (objectsFrom document 0 (chunkText text chunkSize))
     = seq 0 (length (chunkText text chunkSize))
  /\ forall batch : batcher,
       batch (objectsFrom document 0 (chunkText text chunkSize)) = None ->
       indexDocument (Some batch) document (chunkText text chunkSize)
       = Return (Some (objectsFrom document 0 (chunkText text chunkSize))).
Proof.
  intros Hne.
  destruct (@chunkText_groups text chunkSize Hne) as (hs & E & Hhs & _).
  assert (Hall : Forall (fun chunk => 0 < length (trim chunk))
                        (chunkText text chunkSize)).
  { rewrite E. apply Forall_map. revert Hhs. apply Forall_impl.
    intros h Hh. rewrite (trim_clean_id (join_clean Hh)).
    now apply join_length_pos. }
  destruct (objectsFrom_all document 0 Hall) as [E1 E2].
  split; [exact E1|]. split; [exact E2|].
  intros batch Hb. unfold indexDocument. rewrite Hb.
  replace (length (objectsFrom document 0 (chunkText text chunkSize)))
    with (length (chunkText text chunkSize))
    by (rewrite <- E1 at 1; now rewrite length_map).
  pose proof (chunkText_length_pos text chunkSize) as Hpos.
  apply Nat.ltb_lt in Hpos. now rewrite Hpos.
Qed.

Lemma chunks_all_indexed_witness :
  map obj_chunkIndex
    (objectsFrom
       (mkDocument (lit "id") (lit "a.txt") (lit "text/plain") 3
          (lit "2024") 2 (lit "..."))
       0 (chunkText (lit "aaaaaa.bbbbbb") (of_nat 2)))
  = seq 0 (length (chunkText (lit "aaaaaa.bbbbbb") (of_nat 2))).
Proof.
  assert (H : sentencesOf (lit "aaaaaa.bbbbbb") <> [])
    by (vm_compute; discriminate).
  exact (proj1 (proj2 (@chunks_all_indexed
                         (mkDocument (lit "id") (lit "a.txt")
                            (lit "text/plain") 3 (lit "2024") 2 (lit "..."))
                         _ (of_nat 2) H))).
Defined.

(** X12: uploading a text file that holds only whitespace (the empty file
    included) records a document with one chunk, the fallback chunk, but
    sends nothing to the index: that chunk is blank, so no batch call is
    made, whatever the client would answer. *)
Theorem blank_file_indexes_nothing
    (toLowerCase : jsstring -> jsstring) (batch : batcher) (file : File)
    (id now text : jsstring) :
  file_type file = mime_txt ->
  file_text file = Some text ->
  Blank text ->
  processFile toLowerCase file = [firstn 500 text]
  /\ doc_chunks (fst (uploadOne toLowerCase (Some batch) file id now)) = 1
  /\ snd (uploadOne toLowerCase (Some batch) file id now) = Return None.
Proof.
  intros Htype Hread Hblank.
  assert (Hx : extractText toLowerCase file = text).
  { unfold extractText, fileTypeOf, extractFromText. rewrite Htype, Hread.
    reflexivity. }
  assert (Hp : processFile toLowerCase file = [firstn 500 text]).
  { unfold processFile, chunkTextDefault. rewrite Hx.
    now rewrite (@chunkText_fallback text _ (sentencesOf_blank Hblank)). }
  split; [exact Hp|]. unfold uploadOne. rewrite Hp. cbn [fst snd].
  split; [reflexivity|].
  unfold indexDocument.
  rewrite objectsFrom_blank; [reflexivity|].
  constructor; [|constructor]. apply trim_blank. now apply Blank_firstn.
Qed.

Lemma blank_file_indexes_nothing_witness :
  doc_chunks
    (fst (uploadOne toLowerCaseAscii (Some (fun _ => Some "rejected"%string))
            (mkFile (lit "empty.txt") mime_txt 2 (Some (lit "  ")) true)
            (lit "id") (lit "2024"))) = 1
  /\ snd (uploadOne toLowerCaseAscii (Some (fun _ => Some "rejected"%string))
            (mkFile (lit "empty.txt") mime_txt 2 (Some (lit "  ")) true)
            (lit "id") (lit "2024")) = Return None.
Proof.
  assert (Hb : Blank (lit "  ")) by (repeat constructor).
  exact (proj2 (@blank_file_indexes_nothing toLowerCaseAscii
                  (fun _ => Some "rejected"%string)
                  (mkFile (lit "empty.txt") mime_txt 2 (Some (lit "  ")) true)
                  (lit "id") (lit "2024") (lit "  ") eq_refl eq_refl Hb)).
Defined.

(** ** Searching *)

Section Searching.

Variable value : Type.



End Searching.



(** ** Relevance *)

Section Thresholds.

Lemma SFleb_positive m1 e1 m2 e2 :
  SFleb (S754_finite false m1 e1) (S754_finite false m2 e2) = true
  <-> (e1 < e2 \/ (e1 = e2 /\ Zpos m1 <= Zpos m2))%Z.
Proof.
  unfold SFleb, SFcompare.
  change (Pos.compare_cont Eq m1 m2) with (Pos.compare m1 m2).
  destruct (Z.compare_spec e1 e2) as [E | E | E].
  - destruct (Pos.compare_spec m1 m2) as [M | M | M];
      split; intros H; try discriminate; try reflexivity; try lia.
  - split; [intros _; now left | reflexivity].
  - split; [discriminate | lia].
Qed.

(** The thresholds are ordered: a score of at least 0.8 is at least 0.6,
    and one of at least 0.6 is at least 0.4. *)
Lemma thresholds_ordered (score : float) :
  ((0.8 <=? score)%float = true -> (0.6 <=? score)%float = true)
  /\ ((0.6 <=? score)%float = true -> (0.4 <=? score)%float = true).
Proof.
  rewrite !leb_spec.
  change (Prim2SF 0.8) with (S754_finite false 7205759403792794 (-53)).
  change (Prim2SF 0.6) with (S754_finite false 5404319552844595 (-53)).
  change (Prim2SF 0.4) with (S754_finite false 7205759403792794 (-54)).
  destruct (Prim2SF score) as [s | s | | s m e].
  - split; discriminate.
  - destruct s; split; intros H; (discriminate || reflexivity).
  - split; discriminate.
  - destruct s; [split; discriminate|].
    rewrite !SFleb_positive. split; lia.
Qed.

Lemma leb_nan (c score : float) :
  PrimFloat.is_nan score = true -> (c <=? score)%float = false.
Proof.
  intros H. rewrite leb_spec. unfold Prim2SF at 2. rewrite H.
  unfold SFleb, SFcompare. now destruct (Prim2SF c).
Qed.

End Thresholds.

(** X14: the four labels are cut at 0.8, 0.6 and 0.4: a score is
    ["Highly Relevant"] exactly when it is at least 0.8, ["Very Relevant"]
    exactly when it is at least 0.6 and not at least 0.8, ["Relevant"]
    exactly when it is at least 0.4 and not at least 0.6, and
    ["Somewhat Relevant"] exactly when [score >= 0.4] is false, which is
    so for NaN; the text colour and the bar colour always come from the
    bucket of the label, in both themes. *)
Theorem relevance_buckets_agree (theme : Theme) (score : float) :
  (getRelevanceLabel score = lit "Highly Relevant"
   <-> (0.8 <=? score)%float = true)
  /\ (getRelevanceLabel score = lit "Very Relevant"
      <-> (0.6 <=? score)%float = true /\ (0.8 <=? score)%float = false)
  /\ (getRelevanceLabel score = lit "Relevant"
      <-> (0.4 <=? score)%float = true /\ (0.6 <=? score)%float = false)
  /\ (getRelevanceLabel score = lit "Somewhat Relevant"
      <-> (0.4 <=? score)%float = false)
  /\ (PrimFloat.is_nan score = true ->
      getRelevanceLabel score = lit "Somewhat Relevant")
  /\ ((getRelevanceLabel score = lit "Highly Relevant"
       /\ barColor score = lit "bg-green-500"
       /\ getRelevanceColor theme score
          = match theme with
            | dark => lit "text-green-400" | light => lit "text-green-600"
            end)
      \/ (getRelevanceLabel score = lit "Very Relevant"
          /\ barColor score = lit "bg-yellow-500"
          /\ getRelevanceColor theme score
             = match theme with
               | dark => lit "text-yellow-400"
               | light => lit "text-yellow-600"
               end)
      \/ (getRelevanceLabel score = lit "Relevant"
          /\ barColor score = lit "bg-orange-500"
          /\ getRelevanceColor theme score
             = match theme with
               | dark => lit "text-orange-400"
               | light => lit "text-orange-600"
               end)
      \/ (getRelevanceLabel score = lit "Somewhat Relevant"
          /\ barColor score = lit "bg-red-500"
          /\ getRelevanceColor theme score
             = match theme with
               | dark => lit "text-red-400" | light => lit "text-red-600"
               end)).
Proof.
  destruct (thresholds_ordered score) as [H86 H64].
  pose proof (@leb_nan 0.4%float score) as Hnan.
  unfold getRelevanceLabel, barColor, getRelevanceColor.
  destruct (0.8 <=? score)%float eqn:E8.
  - rewrite (H86 eq_refl) in *. rewrite (H64 eq_refl) in *.
    split; [now split|].
    split; [split; [intros H; vm_compute in H; discriminate
                   |intros [_ H]; discriminate]|].
    split; [split; [intros H; vm_compute in H; discriminate
                   |intros [_ H]; discriminate]|].
    split; [split; [intros H; vm_compute in H; discriminate
                   |discriminate]|].
    split; [intros H; specialize (Hnan H); discriminate|].
    left. now repeat split.
  - destruct (0.6 <=? score)%float eqn:E6.
    + rewrite (H64 eq_refl) in *.
      split; [split; [intros H; vm_compute in H; discriminate
                     |discriminate]|].
      split; [now split|].
      split; [split; [intros H; vm_compute in H; discriminate
                     |intros [_ H]; discriminate]|].
      split; [split; [intros H; vm_compute in H; discriminate
                     |discriminate]|].
      split; [intros H; specialize (Hnan H); discriminate|].
      right; left. now repeat split.
    + destruct (0.4 <=? score)%float eqn:E4.
      * split; [split; [intros H; vm_compute in H; discriminate
                       |discriminate]|].
        split; [split; [intros H; vm_compute in H; discriminate
                       |intros [H _]; discriminate]|].
        split; [now split|].
        split; [split; [intros H; vm_compute in H; discriminate
                       |discriminate]|].
        split; [intros H; specialize (Hnan H); discriminate|].
        right; right; left. now repeat split.
      * split; [split; [intros H; vm_compute in H; discriminate
                       |discriminate]|].
        split; [split; [intros H; vm_compute in H; discriminate
                       |intros [H _]; discriminate]|].
        split; [split; [intros H; vm_compute in H; discriminate
                       |intros [H _]; discriminate]|].
        split; [now split|].
        split; [reflexivity|].
        right; right; right. now repeat split.
Qed.

Lemma relevance_buckets_agree_witness :
  getRelevanceLabel nan = lit "Somewhat Relevant"
  /\ getRelevanceLabel 0.39%float = lit "Somewhat Relevant"
  /\ getRelevanceLabel 0.8%float = lit "Highly Relevant".
Proof.
  split; [|split].
  - exact (proj1 (proj2 (proj2 (proj2 (proj2
             (relevance_buckets_agree dark nan))))) eq_refl).
  - exact (proj2 (proj1 (proj2 (proj2 (proj2
             (relevance_buckets_agree dark 0.39%float))))) eq_refl).
  - exact (proj2 (proj1 (relevance_buckets_agree dark 0.8%float)) eq_refl).
Defined.

Section FallbackLabels.

Lemma position_labels_checked :
  forallb (fun i => str_eqb (getRelevanceLabel (positionScore (indexNumber i)))
                            (positionLabel i))
          (seq 0 (100 * 100)) = true.
Proof. vm_compute. reflexivity. Qed.

End FallbackLabels.

(** X15: in a keyword-fallback answer of up to 10000 hits the label shown
    depends on the position alone: the first three results are
    ["Highly Relevant"], the next two ["Very Relevant"], the sixth
    ["Relevant"], and all from the seventh on ["Somewhat Relevant"]; the
    seventh scores just below 0.4 in binary64. *)
Theorem fallback_labels_by_position (value : Type) (run : client value)
    (query : jsstring) (limit : number) (hits : list (RawItem value))
    (i : nat) :
  run (lit "*" ++ query ++ lit "*") limit = Resolved (Some hits) ->
  length hits <= 100 * 100 ->
  i < length hits ->
  exists results r,
    fallbackKeywordSearch (Some run) query limit = Return results
    /\ nth_error results i = Some r
    /\ getRelevanceLabel (score r) = positionLabel i.
Proof.
  intros Hrun Hlen Hi.
  destruct (nth_error hits i) as [item|] eqn:Hnth;
    [|apply nth_error_None in Hnth; lia].
  exists (mapFrom 0%float hits), (toResult item (indexNumber i)).
  split; [unfold fallbackKeywordSearch; now rewrite Hrun|].
  split; [now apply mapFrom_nth|].
  cbn [score toResult]. apply str_eqb_eq.
  pose proof position_labels_checked as H.
  rewrite forallb_forall in H. apply H. apply in_seq. lia.
Qed.

Lemma fallback_labels_by_position_witness :
  exists results r,
    fallbackKeywordSearch
      (Some (fun _ _ => Resolved (Some (repeat (mkRawItem 1 2 3 4 5) 7))))
      (lit "cat") (of_nat 10) = Return results
    /\ nth_error results 6 = Some r
    /\ getRelevanceLabel (score r) = lit "Somewhat Relevant".
Proof.
  apply (@fallback_labels_by_position nat
           (fun _ _ => Resolved (Some (repeat (mkRawItem 1 2 3 4 5) 7)))
           (lit "cat") (of_nat 10) (repeat (mkRawItem 1 2 3 4 5) 7) 6
           eq_refl).
  - cbn. lia.
  - cbn. lia.
Defined.

(** ** Documents in the state of the application *)

Section Deleting.

Lemma find_filter_other documents id other :
  other <> id ->
  getDocumentById
    (filter (fun doc => negb (str_eqb (doc_id doc) id)) documents) other
  = getDocumentById documents other.
Proof.
  intros Hne. unfold getDocumentById.
  induction documents as [|d ds IH]; [reflexivity|]. cbn [filter find].
  destruct (str_eqb (doc_id d) id) eqn:E1; cbn [negb find].
  - apply str_eqb_eq in E1.
    destruct (str_eqb (doc_id d) other) eqn:E2; [|exact IH].
    apply str_eqb_eq in E2. congruence.
  - destruct (str_eqb (doc_id d) other); [reflexivity | exact IH].
Qed.

Lemma find_filter_same documents id :
  getDocumentById
    (filter (fun doc => negb (str_eqb (doc_id doc) id)) documents) id
  = None.
Proof.
  unfold getDocumentById.
  induction documents as [|d ds IH]; [reflexivity|]. cbn [filter].
  destruct (str_eqb (doc_id d) id) eqn:E; cbn [negb find]; [exact IH|].
  now rewrite E.
Qed.

End Deleting.

(** X16: after a delete that the service confirms, no document and no
    search result with that id is left, the deleted id is no longer found,
    every other id finds the same document as before, and the order of
    what remains is kept; the selection is not touched, so a document that
    was selected when it was deleted stays selected and in the details
    panel though the list no longer holds it; a delete that fails leaves
    the state as it was; clearing all, once confirmed and with every delete
    resolved, empties both lists and the selection. *)
Theorem handleDeleteDocument_removes (documentId : jsstring)
    (st : AppState) :
  let st' := handleDeleteDocument true documentId st in
  Forall (fun doc => doc_id doc <> documentId) (documents st')
  /\ Forall (fun r => res_documentId r <> documentId) (searchResults st')
  /\ getDocumentById (documents st') documentId = None
  /\ (forall other, other <> documentId ->
        getDocumentById (documents st') other
        = getDocumentById (documents st) other)
  /\ searchResults st'
     = filter (fun r => negb (str_eqb (res_documentId r) documentId))
              (searchResults st)
  /\ selectedDocument st' = selectedDocument st
  /\ (forall document, doc_id document = documentId ->
        let st2 := handleDeleteDocument true documentId
                     (selectDocument document st) in
        detailsPanel st2 = Some document
        /\ ~ In document (documents st2))
  /\ handleDeleteDocument false documentId st = st
  /\ (forall deletes,
        forallb (fun doc => deletes (doc_id doc)) (documents st) = true ->
        handleClearAll true deletes st = mkAppState [] [] None)
  /\ (forall deletes, handleClearAll false deletes st = st).
Proof.
  cbv zeta. unfold handleDeleteDocument.
  cbn [documents searchResults selectedDocument].
  assert (Hdocs : forall docs,
    Forall (fun doc => doc_id doc <> documentId)
           (filter (fun doc => negb (str_eqb (doc_id doc) documentId)) docs)).
  { intros docs. apply Forall_forall. intros d Hin. apply filter_In in Hin.
    destruct Hin as [_ H]. intros E. apply str_eqb_eq in E.
    rewrite E in H. discriminate. }
  split; [apply Hdocs|].
  split.
  { apply Forall_forall. intros r Hin. apply filter_In in Hin.
    destruct Hin as [_ H]. intros E. apply str_eqb_eq in E.
    rewrite E in H. discriminate. }
  split; [apply find_filter_same|].
  split; [intros other Hne; now apply find_filter_other|].
  split; [reflexivity|]. split; [reflexivity|].
  split.
  { intros document Hid. split; [reflexivity|].
    cbn [selectDocument documents]. intros Hin.
    pose proof (Hdocs (documents st)) as H.
    rewrite Forall_forall in H. exact (H _ Hin Hid). }
  split; [reflexivity|].
  split; [|reflexivity].
  intros deletes H. unfold handleClearAll. now rewrite H.
Qed.

Lemma handleDeleteDocument_removes_witness :
  let a := mkDocument (lit "a") (lit "a.txt") mime_txt 1 (lit "d") 1
             (lit "...") in
  let b := mkDocument (lit "b") (lit "b.txt") mime_txt 1 (lit "d") 1
             (lit "...") in
  let st := handleDeleteDocument true (lit "a")
              (selectDocument a (mkAppState [a; b] [] None)) in
  documents st = [b] /\ detailsPanel st = Some a.
Proof.
  cbv zeta. split; [reflexivity|].
  exact (proj1
           (proj1 (proj2 (proj2 (proj2 (proj2 (proj2 (proj2
              (handleDeleteDocument_removes (lit "a")
                 (mkAppState
                    [mkDocument (lit "a") (lit "a.txt") mime_txt 1 (lit "d")
                       1 (lit "...");
                     mkDocument (lit "b") (lit "b.txt") mime_txt 1 (lit "d")
                       1 (lit "...")] [] None))))))))
              (mkDocument (lit "a") (lit "a.txt") mime_txt 1 (lit "d") 1
                 (lit "..."))
              eq_refl)).
Defined.

(** X17: the document that an upload records counts the chunks, at least
    one, and its preview is cut from the chunks joined by single spaces:
    the first 1000 code units of that text, all of it when it is no longer,
    followed by three dots in either case; so the preview agrees with the
    joined text on its first 1000 positions, starts with the first chunk
    when that has at most 1000 code units, and is between 3 and 1003 code
    units long. *)
Theorem uploaded_document_preview
    (toLowerCase : jsstring -> jsstring) (c : option batcher) (file : File)
    (id now : jsstring) :
  let chunks := processFile toLowerCase file in
  let joined := joinWith (lit " ") chunks in
  let document := fst (uploadOne toLowerCase c file id now) in
  1 <= doc_chunks document
  /\ doc_chunks document = length chunks
  /\ (exists prefix rest,
        joined = prefix ++ rest
        /\ length prefix = Nat.min 1000 (length joined)
        /\ doc_content document = prefix ++ lit "...")
  /\ (length joined <= 1000 -> doc_content document = joined ++ lit "...")
  /\ (forall i, i < 1000 -> i < length joined ->
        nth_error (doc_content document) i = nth_error joined i)
  /\ (forall first others, chunks = first :: others ->
        length first <= 1000 ->
        firstn (length first) (doc_content document) = first)
  /\ 3 <= length (doc_content document) <= 1003
  /\ doc_name document = file_name file
  /\ doc_id document = id.
Proof.
  cbv zeta. unfold uploadOne. cbn [fst makeDocument doc_chunks doc_content
                                     doc_name doc_id].
  set (chunks := processFile toLowerCase file).
  set (joined := joinWith (lit " ") chunks).
  split; [apply chunkText_length_pos|]. split; [reflexivity|].
  unfold previewOf. fold joined.
  split.
  { exists (firstn 1000 joined), (skipn 1000 joined).
    split; [symmetry; apply firstn_skipn|].
    split; [apply length_firstn | reflexivity]. }
  split; [intros H; now rewrite firstn_all2|].
  split.
  { intros i Hi Hlen. rewrite nth_error_app1.
    - rewrite nth_error_firstn.
      apply Nat.ltb_lt in Hi. now rewrite Hi.
    - rewrite length_firstn. lia. }
  split.
  { intros first others E Hlen.
    assert (Hj : exists tail, joined = first ++ tail).
    { unfold joined. rewrite E. cbn [joinWith].
      destruct others as [|o others]; [exists []; now rewrite app_nil_r|].
      now eexists. }
    destruct Hj as [tail Hj].
    assert (Hl : length first <= length joined)
      by (rewrite Hj, length_app; lia).
    rewrite firstn_app, firstn_firstn, length_firstn.
    replace (Nat.min (length first) 1000) with (length first) by lia.
    replace (length first - Nat.min 1000 (length joined)) with 0 by lia.
    cbn [firstn]. rewrite app_nil_r, Hj, firstn_app, Nat.sub_diag, firstn_all.
    cbn [firstn]. apply app_nil_r. }
  rewrite length_app. change (length (lit "...")) with 3.
  pose proof (firstn_le_length 1000 joined) as Hle.
  split; [lia|]. now split.
Qed.

Lemma uploaded_document_preview_witness :
  doc_content
    (fst (uploadOne toLowerCaseAscii None
            (mkFile (lit "a.txt") mime_txt 14
               (Some (lit "One. Two! Six?")) true)
            (lit "id") (lit "now")))
  = lit "One. Two. Six...".
Proof.
  rewrite (proj1 (proj2 (proj2 (proj2
             (uploaded_document_preview toLowerCaseAscii None
                (mkFile (lit "a.txt") mime_txt 14
                   (Some (lit "One. Two! Six?")) true)
                (lit "id") (lit "now")))))).
  - reflexivity.
  - vm_compute. lia.
Defined.

(** ** The theme *)

(** X18: the theme survives a reload: what the effect stores for a theme is
    read back as that theme by the initial state, whatever the system
    preference; the root element has the class [dark] exactly under the
    dark theme; toggling twice gives the theme back; and a stored item
    that is neither name leaves the choice to the system preference. *)
Theorem theme_persists (theme : Theme) (page : Page) (prefersDark : bool)
    (other : jsstring) :
  initialTheme true (storedTheme (applyTheme theme page)) prefersDark = theme
  /\ initialTheme true
       (storedTheme (applyTheme (toggleTheme theme) (applyTheme theme page)))
       prefersDark
     = toggleTheme theme
  /\ (darkClass (applyTheme theme page) = true <-> theme = dark)
  /\ toggleTheme (toggleTheme theme) = theme
  /\ toggleTheme theme <> theme
  /\ (other <> lit "light" -> other <> lit "dark" ->
      initialTheme true (Some other) prefersDark
      = if prefersDark then dark else light).
Proof.
  split; [now destruct theme|]. split; [now destruct theme|].
  split; [destruct theme; cbn; split; congruence|].
  split; [now destruct theme|]. split; [destruct theme; discriminate|].
  intros H1 H2. unfold initialTheme. cbn [negb].
  destruct (str_eqb other (lit "light")) eqn:E1;
    [apply str_eqb_eq in E1; congruence|].
  destruct (str_eqb other (lit "dark")) eqn:E2;
    [apply str_eqb_eq in E2; congruence|].
  reflexivity.
Qed.

Lemma theme_persists_witness :
  initialTheme true (Some (lit "blue")) true = dark.
Proof.
  apply (proj2 (proj2 (proj2 (proj2 (proj2
           (theme_persists light (mkPage None false) true (lit "blue")))))));
    discriminate.
Defined.

(** ** The icon and the type of a name *)

(** X19: the icon of a document and the MIME type that [processFile]
    derives from the same name agree: red exactly for PDF, blue exactly
    for the two Word types, purple exactly for RTF; green means plain text
    or Markdown, and the grey icon of an unknown extension goes with
    [text/plain]. *)
Theorem icon_matches_type (toLowerCase : jsstring -> jsstring)
    (name : jsstring) :
  let icon := getFileIcon toLowerCase name in
  let type := getTypeFromName toLowerCase name in
  (icon = lit "text-red-500" <-> type = mime_pdf)
  /\ (icon = lit "text-blue-500" <-> type = mime_docx \/ type = mime_doc)
  /\ (icon = lit "text-purple-500" <-> type = mime_rtf)
  /\ (icon = lit "text-green-500" -> type = mime_txt \/ type = mime_md)
  /\ (icon = lit "text-gray-500" -> type = mime_txt).
Proof.
  cbv zeta. unfold getFileIcon, getTypeFromName, typeOfExtension.
  destruct (extensionOf toLowerCase name) as [e|].
  - destruct (str_eqb e (lit "pdf")); [cbn; intuition discriminate|].
    destruct (str_eqb e (lit "docx")); [cbn; intuition discriminate|].
    destruct (str_eqb e (lit "doc")); [cbn; intuition discriminate|].
    destruct (str_eqb e (lit "txt")); [cbn; intuition discriminate|].
    destruct (str_eqb e (lit "md")); [cbn; intuition discriminate|].
    destruct (str_eqb e (lit "rtf")); cbn; intuition discriminate.
  - cbn; intuition discriminate.
Qed.

Lemma icon_matches_type_witness :
  getTypeFromName toLowerCaseAscii (lit "scan.PDF") = mime_pdf.
Proof.
  apply (proj1 (proj1 (icon_matches_type toLowerCaseAscii (lit "scan.PDF")))).
  reflexivity.
Defined.

(** ** What extraction does not read *)

(** X20: a file whose type, given or derived from its name, is PDF or one
    of the two Word types is never read as text: the chunks depend on its
    name and on whether [arrayBuffer] resolved, not on its content or
    size. *)
Theorem stub_extraction_ignores_content
    (toLowerCase : jsstring -> jsstring) (file : File)
    (content : option jsstring) (size : N) :
  In (fileTypeOf toLowerCase file) [mime_pdf; mime_docx; mime_doc] ->
  processFile toLowerCase
    (mkFile (file_name file) (file_type file) size content
       (file_arrayBuffer file))
  = processFile toLowerCase file
  /\ (extractText toLowerCase file = extractFromPDF file
      \/ extractText toLowerCase file = extractFromWord file).
Proof.
  intros Hin. unfold processFile, extractText. unfold fileTypeOf in *.
  cbn [file_type file_name].
  destruct Hin as [<- | [<- | [<- | []]]]; cbn [str_eqb orb]; split;
    try reflexivity; auto.
Qed.

Lemma stub_extraction_ignores_content_witness :
  processFile toLowerCaseAscii
    (mkFile (lit "a.pdf") (lit "") 7 (Some (lit "The real text.")) true)
  = processFile toLowerCaseAscii
      (mkFile (lit "a.pdf") (lit "") 0 None true).
Proof.
  apply (proj1 (@stub_extraction_ignores_content toLowerCaseAscii
                  (mkFile (lit "a.pdf") (lit "") 0 None true)
                  (Some (lit "The real text.")) 7
                  (or_introl eq_refl))).
Defined.

(** ** What a chunk is made of *)

Section ChunkContent.

Lemma join_code_units g :
  Forall Sentence g ->
  Forall (fun c => is_delim c = false \/ c = 46%N) (join g).
Proof.
  induction 1 as [|s g (_ & _ & Hs) Hg IH]; cbn [join]; [constructor|].
  apply Forall_app. split.
  - revert Hs. apply Forall_impl. now left.
  - destruct g as [|s' g]; [constructor|].
    apply Forall_app. split; [|exact IH].
    constructor; [now right|]. constructor; [now left | constructor].
Qed.

End ChunkContent.

(** X4: when the text has a sentence, every chunk is non-empty, has no
    whitespace at either end, and holds neither ['!'] nor ['?']: the
    delimiters of the text are all replaced by the separator [". "] or
    dropped. *)
Theorem chunks_hold_no_marks (text : jsstring) (chunkSize : number) :
  sentencesOf text <> [] ->
  Forall (fun chunk =>
            chunk <> []
            /\ trim chunk = chunk
            /\ Forall (fun c => c <> 33%N /\ c <> 63%N) chunk)
         (chunkText text chunkSize).
Proof.
  intros Hne.
  destruct (@chunkText_groups text chunkSize Hne) as (hs & E & Hhs & _).
  rewrite E. apply Forall_map. revert Hhs. apply Forall_impl.
  intros h Hh. split; [now apply join_nonempty|].
  split; [apply trim_clean_id, join_clean, Hh|].
  pose proof (join_code_units (proj2 Hh)) as Hc.
  revert Hc. apply Forall_impl.
  intros c [Hc | Hc]; split; intros Hmark; subst c; discriminate.
Qed.

Lemma chunks_hold_no_marks_witness :
  chunkText (lit "Hi! How are you?") (of_nat 500) = [lit "Hi. How are you"]
  /\ Forall (fun chunk =>
               chunk <> []
               /\ trim chunk = chunk
               /\ Forall (fun c => c <> 33%N /\ c <> 63%N) chunk)
            (chunkText (lit "Hi! How are you?") (of_nat 500)).
Proof.
  split; [vm_compute; reflexivity|].
  apply chunks_hold_no_marks. vm_compute. discriminate.
Defined.
